(** * Sparse NMF by block coordinate descent: a model of [sparseNMF.py]

    The program factorises a non-negative matrix [X ~ W H]; the columns of
    [W] are projected onto a prescribed ratio of L1 to L2 norm by
    [sparse_opt], [H] follows the multiplicative update rule.

    Arrays of floating-point numbers are modelled as lists of real numbers
    ([vec] for one axis, [matrix] for two axes, a list of rows) and every
    arithmetic operation as the exact operation on [R].  Rounding is
    therefore outside the model, and so are the non-finite values numpy
    produces for a division by zero or the square root of a negative
    number: statements that depend on such an operation spell out the
    side condition that keeps it defined.  The exceptions the program
    raises itself are results of type [result]; the errors numpy reports
    for arrays whose extents do not fit are not modelled, and statements
    about the array operations assume shapes that fit ([has_shape]).
    The process-wide random generator is an explicit state.  [update_W]
    overwrites the array it is given; the model returns the new value. *)

From Stdlib Require Import Reals Lra Lia ZArith List Bool Psatz.
From Stdlib Require Import Permutation.
Import ListNotations.
Open Scope R_scope.

(** ** Exceptions *)

Inductive exn : Type :=
| AssertionError   (* [assert seed is not None] *)
| ValueError       (* raised by [sparse_opt] *)
| TypeError.       (* an operand is [None] *)

Inductive result (A : Type) : Type :=
| Ok (a : A)
| Raise (e : exn).
Arguments Ok {A} a.
Arguments Raise {A} e.

Definition bind {A B : Type} (r : result A) (f : A -> result B) : result B :=
  match r with
  | Ok a => f a
  | Raise e => Raise e
  end.

Notation "x <- r ;; k" := (bind r (fun x => k))
  (at level 61, r at next level, right associativity).

(** ** The numpy operations the program uses *)

Module Np.

Definition vec := list R.
Definition matrix := list vec.

(** [np.shape] of a two-axis array (an array without rows has no row to
    measure, its second extent reads as 0 here). *)
Definition shape (A : matrix) : nat * nat := (length A, length (hd [] A)).

(** Every row has the same length: the array is [m] by [n]. *)
Definition has_shape (A : matrix) (m n : nat) : bool :=
  Nat.eqb (length A) m && forallb (fun r => Nat.eqb (length r) n) A.

Definition zeros (n : nat) : vec := repeat 0 n.

(** [np.arange(a, b)] as floating-point numbers. *)
Definition arange (a b : nat) : vec :=
  map (fun i => IZR (Z.of_nat i)) (seq a (b - a)).

(** Elementwise operations on arrays of equal extent. *)
Fixpoint map2 {A B C : Type} (f : A -> B -> C) (u : list A) (v : list B)
  : list C :=
  match u, v with
  | x :: u', y :: v' => f x y :: map2 f u' v'
  | _, _ => []
  end.

Definition vadd : vec -> vec -> vec := map2 Rplus.
Definition vsub : vec -> vec -> vec := map2 Rminus.
Definition vmul : vec -> vec -> vec := map2 Rmult.
Definition vdiv : vec -> vec -> vec := map2 Rdiv.
Definition vneg : vec -> vec := map Ropp.
Definition vsqrt : vec -> vec := map sqrt.
Definition vscale (c : R) : vec -> vec := map (fun x => x * c).
Definition vshift (c : R) : vec -> vec := map (fun x => x + c).

Definition madd : matrix -> matrix -> matrix := map2 vadd.
Definition msub : matrix -> matrix -> matrix := map2 vsub.
Definition mmul : matrix -> matrix -> matrix := map2 vmul.
Definition mdiv : matrix -> matrix -> matrix := map2 vdiv.
Definition mneg : matrix -> matrix := map vneg.
Definition mshift (c : R) : matrix -> matrix := map (vshift c).

Definition vsum (v : vec) : R := fold_right Rplus 0 v.

(** [np.cumsum]. *)
Fixpoint cumsum_from (acc : R) (v : vec) : vec :=
  match v with
  | [] => []
  | x :: t => (acc + x) :: cumsum_from (acc + x) t
  end.

Definition cumsum (v : vec) : vec :=
  match v with
  | [] => []
  | x :: t => x :: cumsum_from x t
  end.

(** Indexing: [v[i]], [A[i, j]], [A[i, :]], [A[:, j]]. *)
Definition get (A : matrix) (i j : nat) : R := nth j (nth i A []) 0.
Definition row (A : matrix) (i : nat) : vec := nth i A [].
Definition col (A : matrix) (j : nat) : vec := map (fun r => nth j r 0) A.

(** [v[i] = x] for an index in range (the program never writes out of
    range; the list is left as it is there). *)
Fixpoint upd (i : nat) (x : R) (v : vec) : vec :=
  match v, i with
  | [], _ => []
  | _ :: t, O => x :: t
  | y :: t, S i' => y :: upd i' x t
  end.

(** [A[:, j] = v]. *)
Definition set_col (A : matrix) (j : nat) (v : vec) : matrix :=
  map2 (fun r x => upd j x r) A v.

(** [V[ind] = a]: the entries of [a] are stored at the positions [ind]. *)
Definition scatter (V : vec) (ind : list nat) (a : vec) : vec :=
  fold_left (fun acc jx => upd (fst jx) (snd jx) acc) (combine ind a) V.

(** [A.T], [np.dot] and [np.outer]. *)
Definition transpose (A : matrix) : matrix :=
  map (col A) (seq 0 (snd (shape A))).

Definition vdot (u v : vec) : R := vsum (vmul u v).

Definition dot (A B : matrix) : matrix :=
  map (fun r => map (fun j => vdot r (col B j)) (seq 0 (snd (shape B)))) A.

Definition outer (u v : vec) : matrix :=
  map (fun x => map (fun y => x * y) v) u.

(** [np.linalg.norm(A, 'fro')]. *)
Definition sumsq (A : matrix) : R := vsum (map (fun r => vsum (vmul r r)) A).
Definition norm_fro (A : matrix) : R := sqrt (sumsq A).

(** [np.sort]: ascending order.  [np.argsort]: the positions in that
    order; numpy leaves the order of equal keys to its sorting routine,
    here equal keys keep their relative order. *)
Fixpoint insert_key (x : R * nat) (l : list (R * nat)) : list (R * nat) :=
  match l with
  | [] => [x]
  | y :: t => if Rlt_dec (fst x) (fst y) then x :: l else y :: insert_key x t
  end.

Definition sort_keys (l : list (R * nat)) : list (R * nat) :=
  fold_left (fun acc x => insert_key x acc) l [].

Definition keyed (v : vec) : list (R * nat) := combine v (seq 0 (length v)).
Definition sort (v : vec) : vec := map fst (sort_keys (keyed v)).
Definition argsort (v : vec) : list nat := map snd (sort_keys (keyed v)).

(** [np.argmax]: the first position of the largest entry ([np.argmax]
    of an empty array raises; the program only calls it on a slice that
    is not empty, and 0 stands for the result on the empty list). *)
Fixpoint argmax_from (best : R) (bi i : nat) (v : vec) : nat :=
  match v with
  | [] => bi
  | x :: t => if Rlt_dec best x then argmax_from x i (S i) t
              else argmax_from best bi (S i) t
  end.

Definition argmax (v : vec) : nat :=
  match v with
  | [] => O
  | x :: t => argmax_from x 0 1 t
  end.

(** [v[a:b]] for [0 <= a]. *)
Definition slice {A : Type} (v : list A) (a b : nat) : list A :=
  firstn (b - a) (skipn a v).

(** [np.spacing(1)], the gap between 1 and the next double. *)
Definition spacing1 : R := / 2 ^ 52.

End Np.
Import Np.

(** ** [sparse_opt]: projection onto the sparsity constraint *)

(** L1 and L2 norm of a vector. *)
Definition norm1 (z : vec) : R := vsum (map Rabs z).
Definition norm2 (z : vec) : R := sqrt (vsum (vmul z z)).

(** The arrays [y] and [obj] of [sparse_opt], lines 130-133 and 140. *)
Definition sparse_opt_y (b : vec) (k : R) : vec :=
  let m := length b in
  let sumb := cumsum b in
  let normb := cumsum (vmul b b) in
  let pnormb := vmul (arange 1 (m + 1)) normb in
  vdiv (vsub pnormb (vmul sumb sumb)) (vshift (- (k * k)) (arange 1 (m + 1))).

Definition sparse_opt_obj (b : vec) (k : R) : vec :=
  let m := length b in
  let sumb := cumsum b in
  let y := sparse_opt_y b k in
  vdiv (vadd (vmul (vneg (vsqrt y)) (vshift k (arange 1 (m + 1)))) sumb)
       (arange 1 (m + 1)).

(** [bot], line 134; [k * k >= 0], so [bot] is never negative. *)
Definition sparse_opt_bot (k : R) : Z := Zceil (k * k).

(** The truncation point [p], lines 141-144. *)
Definition sparse_opt_p (b : vec) (k : R) : Z :=
  let m := length b in
  let bot := sparse_opt_bot k in
  let obj := sparse_opt_obj b k in
  let indx := argmax (slice obj (Z.to_nat bot) m) in
  let p := (Z.of_nat indx + bot - 1)%Z in
  let p := Z.min p (Z.of_nat m - 1) in
  Z.max p bot.

Definition sparse_opt_lam (b : vec) (k : R) : R :=
  sqrt (nth (Z.to_nat (sparse_opt_p b k)) (sparse_opt_y b k) 0).

Definition sparse_opt_mue (b : vec) (k : R) : R :=
  let p := sparse_opt_p b k in
  - nth (Z.to_nat p) (cumsum b) 0 / IZR (p + 1)
  + k / IZR (p + 1) * sparse_opt_lam b k.

Definition sparse_opt (b : vec) (k : R) : result vec :=
  let m := length b in
  let bot := sparse_opt_bot k in
  let z := zeros m in
  if (Z.of_nat m <=? bot)%Z then Raise ValueError
  else
    let p := sparse_opt_p b k in
    let lam := sparse_opt_lam b k in
    let mue := sparse_opt_mue b k in
    let head := map (fun x => (x + mue) / lam) (firstn (Z.to_nat (p + 1)) b) in
    Ok (head ++ skipn (Z.to_nat (p + 1)) z).

(** ** [W_sparse_ith] and [update_W]: the feature update *)

(** The ratio target of a column of length [m], lines 68 and 104. *)
Definition ratio_target (m : nat) (spar : R) : R :=
  sqrt (IZR (Z.of_nat m)) - spar * (sqrt (IZR (Z.of_nat m)) - 1).

Definition W_sparse_ith (W HHt cach : matrix) (spar : R) (i : nat)
  : result (matrix * matrix) :=
  let '(m, rank) := shape W in
  let C := vsub (col cach i) (vscale (get HHt i i) (col W i)) in
  let V := zeros m in
  let k := ratio_target m spar in
  a <- sparse_opt (rev (sort (vneg C))) k ;;
  let ind := rev (argsort (vneg C)) in
  let V := scatter V ind a in
  let cach := madd cach (outer (vsub V (col W i)) (row HHt i)) in
  let W := set_col W i V in
  Ok (W, cach).

(** [for i in ...: s = f(s, i)], stopped by the first exception. *)
Fixpoint for_each {S : Type} (f : S -> nat -> result S) (l : list nat) (s : S)
  : result S :=
  match l with
  | [] => Ok s
  | i :: t => s' <- f s i ;; for_each f t s'
  end.

(** The residual cache of line 83. *)
Definition residual (X W H : matrix) : matrix :=
  madd (mneg (dot X (transpose H))) (dot W (dot H (transpose H))).

(** The column sweep of lines 84-85 over the columns [cols]. *)
Definition update_W_sweep (HHt : matrix) (spar : R) (cols : list nat)
  (W cach : matrix) : result (matrix * matrix) :=
  for_each (fun s i => W_sparse_ith (fst s) HHt (snd s) spar i) cols (W, cach).

Definition update_W (X W H : matrix) (spar : R) : result matrix :=
  let '(m, rank) := shape W in
  let HHt := dot H (transpose H) in
  let cach := residual X W H in
  s <- update_W_sweep HHt spar (seq 0 rank) W cach ;;
  Ok (fst s).

(** ** [update_H]: the multiplicative weight update *)

(** One pass of line 95. *)
Definition update_H_step (WtX WtW H : matrix) : matrix :=
  mdiv (mmul H WtX) (mshift spacing1 (dot WtW H)).

Definition update_H (X W H : matrix) : matrix :=
  let WtX := dot (transpose W) X in
  let WtW := dot (transpose W) W in
  Nat.iter 10 (update_H_step WtX WtW) H.

(** ** [init_nmf] and [sparse_nmf] *)

(** The reconstruction error of line 36. *)
Definition reconstruction_error (X W H : matrix) : R :=
  norm_fro (msub X (dot W H)).

(** The outer loop, lines 35-40.  [W] and [H] are the caller's arguments
    and may still be [None]; an operand [None] makes [np.dot] raise.
    The trace [Obj] is local to the function.  Printing under [verbose]
    leaves the returned value as it is and is left out. *)
Fixpoint sparse_nmf_loop (X : matrix) (spar : R) (iters : list nat)
  (W H : option matrix) (Obj : vec) : result (option matrix * option matrix) :=
  match iters with
  | [] => Ok (W, H)
  | i :: rest =>
      match W, H with
      | Some W0, Some H0 =>
          let Obj := upd i (reconstruction_error X W0 H0) Obj in
          W1 <- update_W X W0 H0 spar ;;
          let H1 := update_H X W1 H0 in
          sparse_nmf_loop X spar rest (Some W1) (Some H1) Obj
      | _, _ => Raise TypeError
      end
  end.

(** numpy's process-wide generator: its state, [np.random.seed] and one
    draw of [np.random.rand]. *)
Record generator : Type := {
  rng : Type;
  seed_rng : Z -> rng;
  random_sample : rng -> R * rng
}.

Section Generator.

Variable G : generator.

(** Computations that read and write the generator and may raise. *)
Definition M (A : Type) : Type := rng G -> result A * rng G.

Definition retM {A : Type} (a : A) : M A := fun g => (Ok a, g).
Definition raiseM {A : Type} (e : exn) : M A := fun g => (Raise e, g).
Definition liftM {A : Type} (r : result A) : M A := fun g => (r, g).
Definition bindM {A B : Type} (c : M A) (f : A -> M B) : M B :=
  fun g => match c g with
           | (Ok a, g') => f a g'
           | (Raise e, g') => (Raise e, g')
           end.

Notation "x <~ c ;; k" := (bindM c (fun x => k))
  (at level 61, c at next level, right associativity).

(** [np.random.rand(n)] and [np.random.rand(m, n)]. *)
Fixpoint rand (n : nat) : M vec :=
  match n with
  | O => retM []
  | S n' => fun g => let (x, g1) := random_sample G g in
                     (v <~ rand n' ;; retM (x :: v)) g1
  end.

Fixpoint rand2 (m n : nat) : M matrix :=
  match m with
  | O => retM []
  | S m' => r <~ rand n ;; A <~ rand2 m' n ;; retM (r :: A)
  end.

(** Lines 69-70: each column is projected and stored in [W]. *)
Fixpoint init_nmf_columns (m : nat) (k : R) (cols : list nat) (W : matrix)
  : M matrix :=
  match cols with
  | [] => retM W
  | i :: t =>
      r <~ rand m ;;
      z <~ liftM (sparse_opt (rev (sort r)) k) ;;
      init_nmf_columns m k t (set_col W i z)
  end.

Definition init_nmf (X : matrix) (rank : nat) (spar : R) (seed : Z)
  : M (matrix * matrix) :=
  fun _ =>
    (let '(m, n) := shape X in
     let W := repeat (zeros rank) m in
     let k := ratio_target m spar in
     W <~ init_nmf_columns m k (seq 0 rank) W ;;
     W <~ rand2 m rank ;;
     H <~ rand2 rank n ;;
     retM (W, H)) (seed_rng G seed).

(** Lines 30-33: what happens before the loop. *)
Definition sparse_nmf_init (X : matrix) (rank : nat) (spar : R)
  (seed : option Z) (W H : option matrix)
  : M (option matrix * option matrix) :=
  match W, H with
  | None, None =>
      match seed with
      | None => raiseM AssertionError
      | Some s => WH <~ init_nmf X rank spar s ;;
                  retM (Some (fst WH), Some (snd WH))
      end
  | _, _ => retM (W, H)
  end.

Definition sparse_nmf (X : matrix) (rank maxiter : nat) (spar : R)
  (seed : option Z) (W H : option matrix)
  : M (option matrix * option matrix) :=
  WH <~ sparse_nmf_init X rank spar seed W H ;;
  let Obj := zeros maxiter in
  liftM (sparse_nmf_loop X spar (seq 0 maxiter) (fst WH) (snd WH) Obj).

End Generator.

(** ** Predicates of the statements and inputs of the examples *)

(** Sorted in decreasing order, as [sparse_opt] expects [b]. *)
Fixpoint descending (b : vec) : Prop :=
  match b with
  | x :: (y :: _) as t => y <= x /\ descending t
  | _ => True
  end.

Definition nonneg_vec (v : vec) : Prop := Forall (fun x => 0 <= x) v.
Definition nonneg (A : matrix) : Prop := Forall nonneg_vec A.

(** A small linear congruential generator for the closed examples. *)
Definition lcg : generator := {|
  rng := Z;
  seed_rng := fun s => (s mod 2147483648)%Z;
  random_sample := fun g =>
    (IZR g / 2147483648, ((1103515245 * g + 12345) mod 2147483648)%Z)
|}.

Definition b_slip : vec := [9; 1; -3; -3; -6; -6].

Definition b_neg : vec := [7; 4; 3; 0].
Definition z_neg : vec := [41 / 50; 23 / 50; 17 / 50; -1 / 50].
Definition X_neg : matrix := [[7]; [4]; [3]; [0]].
Definition W_ones : matrix := [[1]; [1]; [1]; [1]].
Definition H_one : matrix := [[1]].
Definition W_neg : matrix := map (fun x => [x]) z_neg.

(** ** Quantities of the statements about [update_H] *)

(** [f 0 + ... + f (n - 1)]. *)
Definition bsum (n : nat) (f : nat -> R) : R := vsum (map f (seq 0 n)).

(** [H.sum()], the sum of all entries. *)
Definition msum (A : matrix) : R := vsum (map vsum A).

(** The squared reconstruction error with the penalty that [np.spacing(1)]
    in the denominator of line 95 stands for. *)
Definition penalised_error (X W H : matrix) : R :=
  sumsq (msub X (dot W H)) + 2 * spacing1 * msum H.

(** One column [x] of [X] with the matching column [h] of [H], for [W]
    with [m] rows and [r] columns given by its entries: the entries of
    [W^T W], of [W^T x] and of [W^T W h], the column after one pass of
    line 95 with [eps] in the denominator, and the squared error of a
    column [g]. *)
Definition gram (m : nat) (W : nat -> nat -> R) (a b : nat) : R :=
  bsum m (fun i => W i a * W i b).
Definition col_wtx (m : nat) (W : nat -> nat -> R) (x : nat -> R) (a : nat)
  : R := bsum m (fun i => W i a * x i).
Definition col_wtwh (m r : nat) (W : nat -> nat -> R) (h : nat -> R)
  (a : nat) : R := bsum r (fun b => gram m W a b * h b).
Definition col_step (m r : nat) (W : nat -> nat -> R) (x h : nat -> R)
  (eps : R) (a : nat) : R :=
  h a * col_wtx m W x a / (col_wtwh m r W h a + eps).
Definition col_error (m r : nat) (W : nat -> nat -> R) (x g : nat -> R) : R :=
  bsum m (fun i => (x i - bsum r (fun a => W i a * g a))
                   * (x i - bsum r (fun a => W i a * g a))).

(** ** Predicates and abbreviations of the further properties *)

(** Sorted in increasing order, as [np.sort] returns. *)
Fixpoint ascending (b : vec) : Prop :=
  match b with
  | x :: (y :: _) as t => x <= y /\ ascending t
  | _ => True
  end.

(** The vector [C] of line 102 and the column [V] of lines 103-107 built
    from a projected vector [a]. *)
Definition column_gradient (cach W HHt : matrix) (i : nat) : vec :=
  vsub (col cach i) (vscale (get HHt i i) (col W i)).

Definition new_column (m : nat) (C a : vec) : vec :=
  scatter (zeros m) (rev (argsort (vneg C))) a.


(** * Properties *)

(** ** Lists and elementwise operations *)

Section Elementwise.

Context {A B C : Type}.
Variable f : A -> B -> C.

Lemma map2_length (u : list A) (v : list B) :
  length (map2 f u v) = Nat.min (length u) (length v).
Proof.
  revert v; induction u as [|x u IH]; intros [|y v]; simpl; auto.
Qed.

Lemma map2_nth (u : list A) (v : list B) (i : nat) (a : A) (b : B) (c : C) :
  (i < length u)%nat -> (i < length v)%nat ->
  nth i (map2 f u v) c = f (nth i u a) (nth i v b).
Proof.
  revert v i; induction u as [|x u IH]; intros [|y v] [|i]; simpl;
    try lia; auto.
  intros; apply IH; lia.
Qed.

End Elementwise.

Lemma map_nth_in {A B : Type} (f : A -> B) (l : list A) (i : nat) (a : A)
  (b : B) : (i < length l)%nat -> nth i (map f l) b = f (nth i l a).
Proof.
  revert i; induction l as [|x l IH]; intros [|i]; simpl; try lia; auto.
  intros; apply IH; lia.
Qed.

Lemma vsum_app (u v : vec) : vsum (u ++ v) = vsum u + vsum v.
Proof. induction u as [|x u IH]; simpl; [lra | rewrite IH; lra]. Qed.

Lemma cumsum_from_length (acc : R) (v : vec) :
  length (cumsum_from acc v) = length v.
Proof. revert acc; induction v; simpl; auto. Qed.

Lemma cumsum_length (v : vec) : length (cumsum v) = length v.
Proof. destruct v; simpl; auto using cumsum_from_length. Qed.

Lemma cumsum_from_nth (v : vec) : forall (acc : R) (i : nat),
  (i < length v)%nat ->
  nth i (cumsum_from acc v) 0 = acc + vsum (firstn (S i) v).
Proof.
  induction v as [|x v IH]; simpl; intros acc i Hi; [lia|].
  destruct i as [|i].
  - destruct v; simpl; lra.
  - rewrite IH by lia. simpl. lra.
Qed.

Lemma cumsum_nth (v : vec) (i : nat) :
  (i < length v)%nat -> nth i (cumsum v) 0 = vsum (firstn (S i) v).
Proof.
  destruct v as [|x v]; simpl; [lia|]. intros Hi.
  destruct i as [|i]; [destruct v; simpl; lra|].
  rewrite cumsum_from_nth by lia. simpl. lra.
Qed.

Lemma arange_length (a b : nat) : length (arange a b) = (b - a)%nat.
Proof. unfold arange. now rewrite length_map, length_seq. Qed.

Lemma arange_nth (a b i : nat) :
  (i < b - a)%nat -> nth i (arange a b) 0 = IZR (Z.of_nat (a + i)).
Proof.
  intros Hi. unfold arange.
  rewrite (map_nth_in _ _ i O) by (rewrite length_seq; lia).
  now rewrite seq_nth.
Qed.

Lemma firstn_vmul (n : nat) (u v : vec) :
  firstn n (vmul u v) = vmul (firstn n u) (firstn n v).
Proof.
  revert u v; induction n as [|n IH]; intros [|x u] [|y v]; simpl; auto.
  unfold vmul in *. now rewrite IH.
Qed.

(** ** The arrays of [sparse_opt] *)

Lemma sparse_opt_bot_bound (k : R) : k * k <= IZR (sparse_opt_bot k).
Proof. unfold sparse_opt_bot. apply Zceil_bound. Qed.

Lemma sparse_opt_bot_nonneg (k : R) : (0 <= sparse_opt_bot k)%Z.
Proof.
  apply le_IZR. pose proof (sparse_opt_bot_bound k). nra.
Qed.

Lemma sparse_opt_p_range (b : vec) (k : R) :
  (sparse_opt_bot k < Z.of_nat (length b))%Z ->
  (sparse_opt_bot k <= sparse_opt_p b k <= Z.of_nat (length b) - 1)%Z.
Proof.
  unfold sparse_opt_p.
  generalize (argmax (slice (sparse_opt_obj b k) (Z.to_nat (sparse_opt_bot k))
                            (length b))).
  intros indx Hm. lia.
Qed.

Lemma sparse_opt_y_length (b : vec) (k : R) :
  length (sparse_opt_y b k) = length b.
Proof.
  unfold sparse_opt_y, vdiv, vsub, vmul, vshift.
  rewrite !map2_length, length_map, !cumsum_length, !map2_length, arange_length.
  lia.
Qed.

(** Entry [i] of [y] in terms of the first [i + 1] entries of [b]. *)
Lemma sparse_opt_y_nth (b : vec) (k : R) (i : nat) :
  (i < length b)%nat ->
  let l := firstn (S i) b in
  nth i (sparse_opt_y b k) 0 =
  (IZR (Z.of_nat (S i)) * vsum (vmul l l) - vsum l * vsum l)
  / (IZR (Z.of_nat (S i)) - k * k).
Proof.
  intros Hi l. unfold sparse_opt_y, vdiv, vsub, vshift.
  assert (Hb2 : length (vmul b b) = length b)
    by (unfold vmul; rewrite map2_length; lia).
  assert (Hc2 : length (cumsum (vmul b b)) = length b)
    by now rewrite cumsum_length.
  assert (Hpn : length (vmul (arange 1 (length b + 1)) (cumsum (vmul b b)))
                = length b)
    by (unfold vmul; rewrite map2_length, arange_length, cumsum_length,
          map2_length; lia).
  assert (Hss : length (vmul (cumsum b) (cumsum b)) = length b)
    by (unfold vmul; rewrite map2_length, cumsum_length; lia).
  rewrite (map2_nth Rdiv _ _ i 0 0 0).
  2:{ rewrite map2_length. lia. }
  2:{ rewrite length_map, arange_length. lia. }
  rewrite (map2_nth Rminus _ _ i 0 0 0) by lia.
  unfold vmul at 1 3.
  rewrite (map2_nth Rmult _ _ i 0 0 0)
    by (rewrite ?arange_length, ?cumsum_length; lia).
  rewrite (map2_nth Rmult _ _ i 0 0 0) by (rewrite cumsum_length; lia).
  rewrite (map_nth_in _ _ i 0) by (rewrite arange_length; lia).
  rewrite arange_nth by lia.
  rewrite !cumsum_nth by lia.
  rewrite firstn_vmul. fold l.
  replace (1 + i)%nat with (S i) by lia.
  unfold Rminus. reflexivity.
Qed.

(** The Cauchy-Schwarz bound [(sum l)^2 <= n * sum l^2] behind the
    numerator of [y], through [sum (c x - t)^2]. *)
Lemma vsum_sq_affine (c t : R) (l : vec) :
  vsum (map (fun x => (c * x - t) * (c * x - t)) l) =
  c * c * vsum (vmul l l) - 2 * c * t * vsum l
  + IZR (Z.of_nat (length l)) * (t * t).
Proof.
  induction l as [|x l IH].
  - simpl. lra.
  - cbn [map vsum fold_right vmul map2 length]. fold (vmul l l).
    fold (vsum (map (fun x => (c * x - t) * (c * x - t)) l)).
    fold (vsum (vmul l l)). fold (vsum l).
    rewrite IH, Nat2Z.inj_succ, succ_IZR. lra.
Qed.

Lemma vsum_nonneg (l : vec) : Forall (fun x => 0 <= x) l -> 0 <= vsum l.
Proof.
  induction 1; simpl; [lra|]. fold (vsum l). lra.
Qed.

Lemma vsum_nonneg_zero (l : vec) :
  Forall (fun x => 0 <= x) l -> vsum l = 0 -> Forall (fun x => x = 0) l.
Proof.
  induction 1 as [|x l Hx Hl IH]; simpl; intros Hs; constructor.
  - pose proof (vsum_nonneg l Hl). fold (vsum l) in Hs. lra.
  - apply IH. pose proof (vsum_nonneg l Hl). fold (vsum l) in Hs. lra.
Qed.

Lemma squares_nonneg (g : R -> R) (l : vec) :
  Forall (fun x => 0 <= x) (map (fun x => g x * g x) l).
Proof. induction l; simpl; constructor; [nra | assumption]. Qed.

Lemma spread_identity (l : vec) :
  let n := IZR (Z.of_nat (length l)) in
  vsum (map (fun x => (n * x - vsum l) * (n * x - vsum l)) l) =
  n * (n * vsum (vmul l l) - vsum l * vsum l).
Proof. intros n. unfold n. rewrite vsum_sq_affine. lra. Qed.

Lemma cauchy_schwarz_prefix (l : vec) :
  0 <= IZR (Z.of_nat (length l)) * vsum (vmul l l) - vsum l * vsum l.
Proof.
  destruct l as [|x l]; [simpl; lra|].
  pose proof (spread_identity (x :: l)) as H. cbv zeta in H.
  set (n := IZR (Z.of_nat (length (x :: l)))) in *.
  assert (Hn : 0 < n).
  { unfold n. apply IZR_lt. simpl. lia. }
  assert (Hs : 0 <= vsum (map (fun y => (n * y - vsum (x :: l)) *
                                         (n * y - vsum (x :: l))) (x :: l))).
  { apply vsum_nonneg, (squares_nonneg (fun y => n * y - vsum (x :: l))). }
  rewrite H in Hs. nra.
Qed.

(** The numerator vanishes exactly on constant lists. *)
Lemma spread_zero_iff (l : vec) :
  IZR (Z.of_nat (length l)) * vsum (vmul l l) - vsum l * vsum l = 0 <->
  Forall (fun x => x = hd 0 l) l.
Proof.
  destruct l as [|x0 l]; [simpl; split; [constructor | intros; lra]|].
  pose proof (spread_identity (x0 :: l)) as H. cbv zeta in H.
  set (L := x0 :: l) in *.
  set (n := IZR (Z.of_nat (length L))) in *.
  assert (Hn : 0 < n) by (unfold n, L; apply IZR_lt; simpl; lia).
  split.
  - intros Hz. rewrite Hz, Rmult_0_r in H.
    apply vsum_nonneg_zero in H;
      [|apply (squares_nonneg (fun y => n * y - vsum L))].
    rewrite Forall_map in H.
    assert (Hall : Forall (fun x => n * x = vsum L) L).
    { eapply Forall_impl; [|exact H]. cbv beta. intros a Ha. nra. }
    assert (H0 : n * x0 = vsum L).
    { rewrite Forall_forall in Hall. apply Hall. now left. }
    eapply Forall_impl; [|exact Hall]. cbv beta. intros a Ha.
    change (hd 0 L) with x0. nra.
  - intros Hc. change (hd 0 L) with x0 in Hc.
    assert (Hs : forall l', Forall (fun x => x = x0) l' ->
                 vsum l' = IZR (Z.of_nat (length l')) * x0 /\
                 vsum (vmul l' l') = IZR (Z.of_nat (length l')) * (x0 * x0)).
    { induction 1 as [|a l' Ha Hl' [IH1 IH2]]; [simpl; lra|].
      subst a. cbn [vsum fold_right vmul map2 length].
      fold (vsum l'). fold (vmul l' l'). fold (vsum (vmul l' l')).
      rewrite IH1, IH2, Nat2Z.inj_succ, succ_IZR. lra. }
    destruct (Hs L Hc) as [-> ->]. fold n. ring.
Qed.

(** The prefix [b[0..n]] is constant, or some entry differs from the
    first. *)
Lemma prefix_constant_dec (b : vec) (n : nat) :
  (forall i, (i <= n)%nat -> nth i b 0 = nth 0 b 0) \/
  (exists i, (i <= n)%nat /\ nth i b 0 <> nth 0 b 0).
Proof.
  induction n as [|n [IH|(i & Hi & Hne)]].
  - left. intros i Hi. replace i with O by lia. reflexivity.
  - destruct (Req_dec (nth (S n) b 0) (nth 0 b 0)) as [He|Hne].
    + left. intros i Hi. destruct (Nat.eq_dec i (S n)) as [->|]; auto.
      apply IH. lia.
    + right. exists (S n). auto.
  - right. exists i. split; [lia | assumption].
Qed.

Lemma prefix_constant_iff (b : vec) (n : nat) :
  (n < length b)%nat ->
  Forall (fun x => x = hd 0 (firstn (S n) b)) (firstn (S n) b) <->
  (forall i, (i <= n)%nat -> nth i b 0 = nth 0 b 0).
Proof.
  intros Hn.
  assert (Hhd : hd 0 (firstn (S n) b) = nth 0 b 0)
    by (destruct b; reflexivity).
  rewrite Hhd, Forall_nth, length_firstn.
  split.
  - intros H i Hi. specialize (H i 0). rewrite nth_firstn in H.
    destruct (Nat.ltb_spec i (S n)); [apply H|]; lia.
  - intros H i d Hi. rewrite nth_firstn.
    destruct (Nat.ltb_spec i (S n)); [|lia].
    rewrite (nth_indep _ _ 0) by lia. apply H. lia.
Qed.

(** C10 (as amended).  Whenever [sparse_opt] passes its guard, the
    truncation point lies in [[bot, m - 1]], the denominator
    [(p + 1) - k^2] of [y[p]] is positive, [y[p] >= 0], and
    [lam = sqrt (y[p])] is a non-negative real.  [lam] is positive exactly
    when the entries [b[0..p]] are not all equal; on a constant prefix
    [lam = 0] and the output is a quotient by zero. *)
Theorem sparse_opt_lam_nonneg (b : vec) (k : R) :
  (sparse_opt_bot k < Z.of_nat (length b))%Z ->
  (sparse_opt_bot k <= sparse_opt_p b k <= Z.of_nat (length b) - 1)%Z /\
  0 < IZR (sparse_opt_p b k + 1) - k * k /\
  0 <= nth (Z.to_nat (sparse_opt_p b k)) (sparse_opt_y b k) 0 /\
  0 <= sparse_opt_lam b k /\
  (0 < sparse_opt_lam b k <->
   exists i, (i <= Z.to_nat (sparse_opt_p b k))%nat /\ nth i b 0 <> nth 0 b 0).
Proof.
  intros Hm.
  pose proof (sparse_opt_p_range b k Hm) as Hp.
  pose proof (sparse_opt_bot_nonneg k) as Hbot.
  pose proof (sparse_opt_bot_bound k) as Hkk.
  unfold sparse_opt_lam.
  set (p := sparse_opt_p b k) in *.
  assert (HP : (Z.to_nat p < length b)%nat) by lia.
  assert (Hden : 0 < IZR (p + 1) - k * k).
  { assert (IZR (sparse_opt_bot k) + 1 <= IZR (p + 1)).
    { rewrite <- plus_IZR. apply IZR_le. lia. }
    lra. }
  rewrite (sparse_opt_y_nth b k (Z.to_nat p) HP). cbv zeta.
  set (l := firstn (S (Z.to_nat p)) b).
  assert (Hlen : length l = S (Z.to_nat p))
    by (unfold l; rewrite length_firstn; lia).
  replace (Z.of_nat (S (Z.to_nat p))) with (p + 1)%Z by lia.
  pose proof (cauchy_schwarz_prefix l) as Hcs.
  pose proof (spread_zero_iff l) as Hz.
  rewrite Hlen in Hcs, Hz.
  replace (Z.of_nat (S (Z.to_nat p))) with (p + 1)%Z in Hcs, Hz by lia.
  set (num := IZR (p + 1) * vsum (vmul l l) - vsum l * vsum l) in *.
  assert (Hy : 0 <= num / (IZR (p + 1) - k * k)).
  { apply Rmult_le_pos; [assumption|]. left. now apply Rinv_0_lt_compat. }
  repeat split; try assumption; try lia.
  - apply sqrt_pos.
  - intros Hlam.
    destruct (prefix_constant_dec b (Z.to_nat p)) as [Hall|Hex];
      [exfalso | assumption].
    apply (proj2 (prefix_constant_iff b (Z.to_nat p) HP)), Hz in Hall.
    rewrite Hall in Hlam.
    unfold Rdiv in Hlam. rewrite Rmult_0_l, sqrt_0 in Hlam. lra.
  - intros (i & Hi & Hne). apply sqrt_lt_R0.
    apply Rmult_lt_0_compat; [|now apply Rinv_0_lt_compat].
    destruct (Req_dec num 0) as [H0|H0]; [exfalso | lra].
    apply Hz in H0.
    apply Hne, (proj1 (prefix_constant_iff b (Z.to_nat p) HP) H0), Hi.
Qed.

(** A constant vector: [lam] is 0 although the guard is passed. *)
Lemma sparse_opt_lam_zero_example :
  (sparse_opt_bot 1 < Z.of_nat (length [1; 1; 1]))%Z /\
  sparse_opt_lam [1; 1; 1] 1 = 0.
Proof.
  assert (Hb : sparse_opt_bot 1 = 1%Z)
    by (unfold sparse_opt_bot; apply Zceil_eq; lra).
  split; [rewrite Hb; simpl; lia|].
  assert (Hp : sparse_opt_p [1; 1; 1] 1 = 1%Z).
  { unfold sparse_opt_p. rewrite Hb. simpl.
    destruct (Rlt_dec _ _); reflexivity. }
  unfold sparse_opt_lam. rewrite Hp. simpl.
  replace ((2 * (1 * 1 + 1 * 1) - (1 + 1) * (1 + 1)) / (2 + - (1 * 1)))
    with 0 by field.
  apply sqrt_0.
Qed.

(** ** Shapes *)

Lemma has_shape_spec (A : matrix) (m n : nat) :
  has_shape A m n = true <->
  length A = m /\ Forall (fun r => length r = n) A.
Proof.
  unfold has_shape. rewrite andb_true_iff, Nat.eqb_eq, forallb_forall,
    Forall_forall.
  split; intros [H1 H2]; split; auto; intros r Hr;
    apply Nat.eqb_eq; auto.
Qed.

Lemma has_shape_rows (A : matrix) (m n : nat) :
  has_shape A m n = true -> length A = m.
Proof. intros H. now apply has_shape_spec in H. Qed.

Lemma has_shape_row (A : matrix) (m n i : nat) :
  has_shape A m n = true -> (i < m)%nat -> length (nth i A []) = n.
Proof.
  intros H Hi. apply has_shape_spec in H as [Hl Hr].
  rewrite Forall_forall in Hr. apply Hr, nth_In. lia.
Qed.

Lemma has_shape_cols (A : matrix) (m n : nat) :
  has_shape A m n = true -> (0 < m)%nat -> snd (shape A) = n.
Proof.
  intros H Hm. pose proof (has_shape_row A m n 0 H Hm) as H0.
  destruct A; simpl in *; auto.
Qed.

Lemma col_length (A : matrix) (j : nat) : length (col A j) = length A.
Proof. unfold col. apply length_map. Qed.

Lemma col_nth (A : matrix) (i j : nat) :
  (i < length A)%nat -> nth i (col A j) 0 = get A i j.
Proof.
  intros Hi. unfold col, get. now rewrite (map_nth_in _ _ i []).
Qed.

Lemma list_as_nth (v : vec) : v = map (fun j => nth j v 0) (seq 0 (length v)).
Proof.
  induction v as [|x v IH]; simpl; [reflexivity|].
  f_equal. rewrite <- seq_shift, map_map. exact IH.
Qed.

Lemma dot_shape (A B : matrix) (m n : nat) :
  length A = m -> snd (shape B) = n -> has_shape (dot A B) m n = true.
Proof.
  intros HA HB. apply has_shape_spec. unfold dot. split.
  - now rewrite length_map.
  - apply Forall_forall. intros r Hr.
    apply in_map_iff in Hr. destruct Hr as (a & <- & _).
    now rewrite length_map, length_seq.
Qed.

Lemma transpose_shape (A : matrix) (m n : nat) :
  has_shape A m n = true -> (0 < m)%nat -> has_shape (transpose A) n m = true.
Proof.
  intros H Hm. apply has_shape_spec. unfold transpose.
  rewrite (has_shape_cols A m n H Hm). split.
  - now rewrite length_map, length_seq.
  - apply Forall_forall. intros r Hr.
    apply in_map_iff in Hr. destruct Hr as (j & <- & _).
    rewrite col_length. eapply has_shape_rows; eauto.
Qed.

Lemma upd_length (i : nat) (x : R) (v : vec) : length (upd i x v) = length v.
Proof.
  revert i; induction v as [|y v IH]; intros [|i]; simpl; auto.
Qed.

Lemma scatter_length (V : vec) (ind : list nat) (a : vec) :
  length (scatter V ind a) = length V.
Proof.
  unfold scatter. generalize (combine ind a) as l. intros l.
  revert V; induction l as [|[j x] l IH]; intros V; simpl; auto.
  now rewrite IH, upd_length.
Qed.

Lemma set_col_shape (A : matrix) (m n j : nat) (v : vec) :
  has_shape A m n = true -> length v = m ->
  has_shape (set_col A j v) m n = true.
Proof.
  intros H Hv. apply has_shape_spec in H as [Hl Hr].
  apply has_shape_spec. unfold set_col. split.
  - rewrite map2_length. lia.
  - clear Hl Hv. revert v. induction Hr as [|r A Hx HA IH];
      intros [|x v]; simpl; constructor.
    + now rewrite upd_length.
    + apply IH.
Qed.

(** ** Sorting keeps the number of entries *)

Lemma insert_key_length (x : R * nat) (l : list (R * nat)) :
  length (insert_key x l) = S (length l).
Proof.
  induction l as [|y l IH]; simpl; auto.
  destruct (Rlt_dec (fst x) (fst y)); simpl; auto.
Qed.

Lemma sort_keys_length (l : list (R * nat)) :
  length (sort_keys l) = length l.
Proof.
  unfold sort_keys.
  assert (H : forall acc, length (fold_left (fun acc x => insert_key x acc)
                                            l acc)
                          = (length l + length acc)%nat).
  { induction l as [|x l IH]; intros acc; simpl; auto.
    rewrite IH, insert_key_length. lia. }
  rewrite H. simpl. lia.
Qed.

Lemma sort_length (v : vec) : length (sort v) = length v.
Proof.
  unfold sort, keyed.
  rewrite length_map, sort_keys_length, length_combine, length_seq. lia.
Qed.

(** ** When [sparse_opt] raises *)

Lemma sparse_opt_raises_iff (b : vec) (k : R) :
  sparse_opt b k = Raise ValueError <->
  (Z.of_nat (length b) <= sparse_opt_bot k)%Z.
Proof.
  unfold sparse_opt.
  destruct (Z.leb_spec (Z.of_nat (length b)) (sparse_opt_bot k)); split;
    intros; try reflexivity; try assumption; try discriminate; lia.
Qed.

Lemma sparse_opt_returns (b : vec) (k : R) :
  (sparse_opt_bot k < Z.of_nat (length b))%Z ->
  exists z, sparse_opt b k = Ok z /\ length z = length b.
Proof.
  intros H. unfold sparse_opt.
  destruct (Z.leb_spec (Z.of_nat (length b)) (sparse_opt_bot k)); [lia|].
  eexists; split; [reflexivity|].
  pose proof (sparse_opt_p_range b k H) as Hp.
  pose proof (sparse_opt_bot_nonneg k).
  unfold zeros.
  rewrite length_app, length_map, length_firstn, length_skipn, repeat_length.
  lia.
Qed.

(** The vector handed to [sparse_opt] by [W_sparse_ith]. *)
Lemma sorted_column_length (W cach HHt : matrix) (i m : nat) :
  length W = m -> length cach = m ->
  length (rev (sort (vneg (vsub (col cach i)
                                 (vscale (get HHt i i) (col W i)))))) = m.
Proof.
  intros HW Hc. unfold vneg, vsub, vscale.
  rewrite length_rev, sort_length, length_map, map2_length, length_map,
    !col_length. lia.
Qed.

(** ** The residual cache across a column update *)

Lemma map2_nil_r {A B C : Type} (f : A -> B -> C) (u : list A) :
  map2 f u [] = [].
Proof. destruct u; reflexivity. Qed.

Lemma vdot_upd (r c : vec) (i : nat) (v : R) :
  (i < length r)%nat ->
  vdot (upd i v r) c = vdot r c + (v - nth i r 0) * nth i c 0.
Proof.
  unfold vdot, vmul.
  revert i c; induction r as [|x r IH]; intros i c Hi; simpl in Hi; [lia|].
  destruct c as [|y c].
  - destruct i; simpl; lra.
  - destruct i as [|i]; simpl.
    + lra.
    + fold (vsum (map2 Rmult (upd i v r) c)). fold (vsum (map2 Rmult r c)).
      rewrite IH by lia. lra.
Qed.

Lemma vadd_row_update (n : vec) (F h : nat -> R) (a : R) (js : list nat) :
  vadd (vadd n (map F js)) (map (fun j => a * h j) js) =
  vadd n (map (fun j => F j + a * h j) js).
Proof.
  unfold vadd. revert n; induction js as [|j js IH]; intros [|x n]; simpl;
    auto.
  rewrite IH. f_equal. lra.
Qed.

Lemma row_as_cols (G : matrix) (rank i : nat) :
  has_shape G rank rank = true -> (i < rank)%nat ->
  row G i = map (fun j => nth i (col G j) 0) (seq 0 (snd (shape G))).
Proof.
  intros HG Hi. unfold row.
  rewrite (has_shape_cols G rank rank HG) by lia.
  rewrite (list_as_nth (nth i G [])) at 1.
  rewrite (has_shape_row G rank rank i HG Hi).
  apply map_ext. intros j. rewrite col_nth; [reflexivity|].
  rewrite (has_shape_rows G rank rank HG). exact Hi.
Qed.

(** Line 108 against line 83: adding [outer(V - W[:, i], HHt[i, :])] to
    [N + W G] gives [N + W' G] for [W'], the matrix [W] with column [i]
    replaced by [V]. *)
Lemma cache_step (N W G : matrix) (V : vec) (rank i : nat) :
  has_shape G rank rank = true -> (i < rank)%nat ->
  Forall (fun r => length r = rank) W ->
  madd (madd N (dot W G)) (outer (vsub V (col W i)) (row G i)) =
  madd N (dot (set_col W i V) G).
Proof.
  intros HG Hi HW.
  rewrite (row_as_cols G rank i HG Hi).
  unfold madd, dot, outer, vsub, set_col.
  set (js := seq 0 (snd (shape G))).
  revert N V. induction HW as [|r W Hr HW IH]; intros N V.
  - simpl. now rewrite !map2_nil_r.
  - destruct V as [|v V]; [simpl; now rewrite !map2_nil_r|].
    destruct N as [|n N]; [reflexivity|].
    change (col (r :: W) i) with (nth i r 0 :: col W i).
    cbn [map map2]. rewrite IH. f_equal.
    rewrite map_map.
    rewrite (vadd_row_update n (fun j => vdot r (col G j))
               (fun j => nth i (col G j) 0) (v - nth i r 0) js).
    f_equal. apply map_ext. intros j.
    rewrite vdot_upd by lia. reflexivity.
Qed.

Lemma for_each_app {S : Type} (f : S -> nat -> result S) (l1 l2 : list nat)
  (s : S) :
  for_each f (l1 ++ l2) s = (s' <- for_each f l1 s ;; for_each f l2 s').
Proof.
  revert s; induction l1 as [|i l1 IH]; intros s; simpl; [reflexivity|].
  destruct (f s i); simpl; auto.
Qed.

(** One column update keeps the shape of [W] and the cache invariant. *)
Lemma W_sparse_ith_invariant (N W G : matrix) (spar : R) (m rank i : nat) :
  has_shape G rank rank = true -> has_shape W m rank = true ->
  length N = m -> (i < rank)%nat ->
  (sparse_opt_bot (ratio_target m spar) < Z.of_nat m)%Z ->
  exists W', W_sparse_ith W G (madd N (dot W G)) spar i
             = Ok (W', madd N (dot W' G)) /\
             has_shape W' m rank = true.
Proof.
  intros HG HW HN Hi Hbot.
  pose proof (has_shape_rows W m rank HW) as HWm.
  assert (Hm : (0 < m)%nat) by (pose proof (sparse_opt_bot_nonneg
                                    (ratio_target m spar)); lia).
  unfold W_sparse_ith, shape. rewrite HWm.
  set (C := vsub (col (madd N (dot W G)) i) (vscale (get G i i) (col W i))).
  assert (HC : length (rev (sort (vneg C))) = m).
  { apply sorted_column_length; [assumption|].
    unfold madd, dot. rewrite map2_length, length_map. lia. }
  destruct (sparse_opt_returns (rev (sort (vneg C))) (ratio_target m spar))
    as (a & Ha & Hla); [rewrite HC; assumption|].
  rewrite Ha. cbn [bind].
  set (V := scatter (zeros m) (rev (argsort (vneg C))) a).
  exists (set_col W i V). split.
  - f_equal. f_equal. apply (cache_step N W G V rank i HG Hi).
    now apply has_shape_spec in HW.
  - apply set_col_shape; [assumption|].
    unfold V, zeros. now rewrite scatter_length, repeat_length.
Qed.

Lemma gram_shape (H : matrix) (rank n : nat) :
  has_shape H rank n = true -> (0 < rank)%nat -> (0 < n)%nat ->
  has_shape (dot H (transpose H)) rank rank = true.
Proof.
  intros HH Hr Hn. apply dot_shape.
  - eapply has_shape_rows; eauto.
  - apply (has_shape_cols _ n rank); [|assumption].
    now apply transpose_shape.
Qed.

(** The sweep over the first [i] columns returns, keeps the shape of [W]
    and ends with the residual of the updated [W] in the cache. *)
Lemma update_W_sweep_invariant (X W H : matrix) (spar : R)
  (m n rank i : nat) :
  has_shape X m n = true -> has_shape W m rank = true ->
  has_shape H rank n = true -> (0 < n)%nat -> (i <= rank)%nat ->
  (sparse_opt_bot (ratio_target m spar) < Z.of_nat m)%Z ->
  exists W' cach',
    update_W_sweep (dot H (transpose H)) spar (seq 0 i) W (residual X W H)
    = Ok (W', cach') /\
    has_shape W' m rank = true /\
    cach' = residual X W' H.
Proof.
  intros HX HW HH Hn Hi Hbot.
  induction i as [|i IH].
  - exists W, (residual X W H). simpl. auto.
  - destruct IH as (W1 & c1 & Hrun & HW1 & Hc1); [lia|].
    assert (HG : has_shape (dot H (transpose H)) rank rank = true)
      by (apply (gram_shape H rank n); auto; lia).
    destruct (W_sparse_ith_invariant (mneg (dot X (transpose H))) W1
                (dot H (transpose H)) spar m rank i) as (W2 & Hstep & HW2);
      auto.
    { unfold mneg, dot. rewrite !length_map.
      eapply has_shape_rows; eauto. }
    exists W2, (residual X W2 H).
    unfold update_W_sweep in *.
    rewrite seq_S, for_each_app, Hrun. cbn [bind for_each fst snd plus].
    rewrite Hc1. unfold residual at 1. rewrite Hstep. auto.
Qed.

(** C4.  The columns are visited in index order, and after each of them
    the cache is the residual [-X H^T + W (H H^T)] of the matrix [W] as
    updated so far: the sweep over the first [i] columns returns, and its
    cache equals the full recomputation. *)
Theorem update_W_cache_consistent (X W H : matrix) (spar : R)
  (m n rank i : nat) :
  has_shape X m n = true -> has_shape W m rank = true ->
  has_shape H rank n = true -> (0 < n)%nat -> (i <= rank)%nat ->
  (sparse_opt_bot (ratio_target m spar) < Z.of_nat m)%Z ->
  exists W' cach',
    update_W_sweep (dot H (transpose H)) spar (seq 0 i) W (residual X W H)
    = Ok (W', cach') /\
    has_shape W' m rank = true /\
    cach' = residual X W' H.
Proof. apply update_W_sweep_invariant. Qed.


(** ** Propagation of the exception of [sparse_opt] *)

Lemma W_sparse_ith_raises (W HHt cach : matrix) (spar : R) (i m : nat) :
  length W = m -> length cach = m ->
  (Z.of_nat m <= sparse_opt_bot (ratio_target m spar))%Z ->
  W_sparse_ith W HHt cach spar i = Raise ValueError.
Proof.
  intros HW Hc Hbot. unfold W_sparse_ith, shape. rewrite HW.
  set (C := vsub (col cach i) (vscale (get HHt i i) (col W i))).
  assert (HC : length (rev (sort (vneg C))) = m)
    by now apply sorted_column_length.
  assert (Hr : sparse_opt (rev (sort (vneg C))) (ratio_target m spar)
               = Raise ValueError)
    by (apply sparse_opt_raises_iff; rewrite HC; assumption).
  rewrite Hr. reflexivity.
Qed.

Lemma update_W_raises (X W H : matrix) (spar : R) (m n rank : nat) :
  has_shape X m n = true -> has_shape W m rank = true ->
  (0 < m)%nat -> (0 < rank)%nat ->
  (Z.of_nat m <= sparse_opt_bot (ratio_target m spar))%Z ->
  update_W X W H spar = Raise ValueError.
Proof.
  intros HX HW Hm Hr Hbot.
  pose proof (has_shape_cols W m rank HW Hm) as Hc.
  pose proof (has_shape_rows W m rank HW) as HWm.
  pose proof (has_shape_rows X m n HX) as HXm.
  unfold update_W. unfold shape in *. cbn [snd] in Hc. cbv beta iota.
  rewrite Hc. destruct rank as [|rank]; [lia|].
  unfold update_W_sweep. cbn [seq for_each fst snd].
  rewrite (W_sparse_ith_raises W _ _ spar 0 m); auto.
  unfold residual, madd, mneg, dot.
  rewrite map2_length, !length_map. lia.
Qed.

Section GeneratorFacts.

Variable G : generator.

Lemma rand_returns (n : nat) (g : rng G) :
  exists v g', rand G n g = (Ok v, g') /\ length v = n.
Proof.
  revert g; induction n as [|n IH]; intros g; simpl.
  - exists [], g. auto.
  - destruct (random_sample G g) as [x g1].
    destruct (IH g1) as (v & g2 & Hv & Hl).
    exists (x :: v), g2. unfold bindM, retM. rewrite Hv. simpl. auto.
Qed.

Lemma sparse_nmf_raises (X W H : matrix) (rank maxiter : nat) (spar : R)
  (seed : option Z) (g : rng G) (m n : nat) :
  has_shape X m n = true -> has_shape W m rank = true ->
  (0 < m)%nat -> (0 < rank)%nat -> (0 < maxiter)%nat ->
  (Z.of_nat m <= sparse_opt_bot (ratio_target m spar))%Z ->
  sparse_nmf G X rank maxiter spar seed
             (Some W) (Some H) g = (Raise ValueError, g).
Proof.
  intros HX HW Hm Hr Hit Hbot.
  unfold sparse_nmf, sparse_nmf_init, bindM, retM, liftM.
  destruct maxiter as [|maxiter]; [lia|].
  cbn [seq sparse_nmf_loop fst snd].
  rewrite (update_W_raises X W H spar m n rank); auto.
Qed.

Lemma init_nmf_raises (X : matrix) (rank : nat) (spar : R) (seed : Z)
  (g : rng G) (m n : nat) :
  has_shape X m n = true -> (0 < rank)%nat ->
  (Z.of_nat m <= sparse_opt_bot (ratio_target m spar))%Z ->
  exists g', init_nmf G X rank spar seed g
             = (Raise ValueError, g').
Proof.
  intros HX Hr Hbot.
  pose proof (has_shape_rows X m n HX) as HXm.
  unfold init_nmf, shape. rewrite HXm.
  destruct rank as [|rank]; [lia|].
  cbn [seq init_nmf_columns]. unfold bindM at 1 2.
  destruct (rand_returns m (seed_rng G seed)) as (v & g' & Hv & Hl).
  rewrite Hv. unfold bindM at 1, liftM.
  assert (Hs : sparse_opt (rev (sort v)) (ratio_target m spar)
               = Raise ValueError).
  { apply sparse_opt_raises_iff. rewrite length_rev, sort_length, Hl.
    assumption. }
  rewrite Hs. exists g'. reflexivity.
Qed.

(** C5.  [sparse_opt] raises exactly when [ceil(k^2) >= m] and returns a
    vector otherwise; the exception leaves [W_sparse_ith], [update_W] and
    [sparse_nmf] as it is, on the path through the loop and on the path
    through [init_nmf]: no caller catches it or clamps. *)
Theorem sparse_opt_error_propagates :
  (forall b k, sparse_opt b k = Raise ValueError <->
               (Z.of_nat (length b) <= sparse_opt_bot k)%Z) /\
  (forall b k, (sparse_opt_bot k < Z.of_nat (length b))%Z ->
               exists z, sparse_opt b k = Ok z) /\
  (forall W HHt cach spar i m rank,
      has_shape W m rank = true -> has_shape cach m rank = true ->
      has_shape HHt rank rank = true -> (i < rank)%nat ->
      (Z.of_nat m <= sparse_opt_bot (ratio_target m spar))%Z ->
      W_sparse_ith W HHt cach spar i = Raise ValueError) /\
  (forall X W H spar m n rank,
      has_shape X m n = true -> has_shape W m rank = true ->
      has_shape H rank n = true ->
      (0 < m)%nat -> (0 < rank)%nat ->
      (Z.of_nat m <= sparse_opt_bot (ratio_target m spar))%Z ->
      update_W X W H spar = Raise ValueError) /\
  (forall X W H rank maxiter spar seed g m n,
      has_shape X m n = true -> has_shape W m rank = true ->
      has_shape H rank n = true ->
      (0 < m)%nat -> (0 < rank)%nat -> (0 < maxiter)%nat ->
      (Z.of_nat m <= sparse_opt_bot (ratio_target m spar))%Z ->
      sparse_nmf G X rank maxiter spar seed
                 (Some W) (Some H) g = (Raise ValueError, g)) /\
  (forall X rank maxiter spar seed g m n,
      has_shape X m n = true -> (0 < rank)%nat ->
      (Z.of_nat m <= sparse_opt_bot (ratio_target m spar))%Z ->
      exists g',
        sparse_nmf G X rank maxiter spar (Some seed)
                   None None g = (Raise ValueError, g')).
Proof.
  repeat split.
  - apply sparse_opt_raises_iff.
  - apply sparse_opt_raises_iff.
  - intros b k Hb. destruct (sparse_opt_returns b k Hb) as (z & Hz & _).
    now exists z.
  - intros W HHt cach spar i m rank HW Hc _ _ Hbot.
    apply (W_sparse_ith_raises W HHt cach spar i m); auto;
      eapply has_shape_rows; eauto.
  - intros X W H spar m n rank HX HW _.
    now apply (update_W_raises X W H spar m n rank).
  - intros X W H rank maxiter spar seed g m n HX HW _.
    now apply (sparse_nmf_raises X W H rank maxiter spar seed g m n).
  - intros X rank maxiter spar seed g m n HX Hr Hbot.
    destruct (init_nmf_raises X rank spar seed g m n HX Hr Hbot)
      as (g' & Hg).
    exists g'. unfold sparse_nmf, sparse_nmf_init. unfold bindM at 1 2.
    rewrite Hg. reflexivity.
Qed.

End GeneratorFacts.

(** ** Finite sums *)

Lemma bsum_S (n : nat) (f : nat -> R) : bsum (S n) f = bsum n f + f n.
Proof.
  unfold bsum. rewrite seq_S, map_app, vsum_app. simpl. lra.
Qed.

Lemma bsum_ext (n : nat) (f g : nat -> R) :
  (forall i, (i < n)%nat -> f i = g i) -> bsum n f = bsum n g.
Proof.
  induction n as [|n IH]; intros H; [reflexivity|].
  rewrite !bsum_S, IH, H; auto.
Qed.

Lemma bsum_le (n : nat) (f g : nat -> R) :
  (forall i, (i < n)%nat -> f i <= g i) -> bsum n f <= bsum n g.
Proof.
  induction n as [|n IH]; intros H; [unfold bsum; simpl; lra|].
  rewrite !bsum_S. specialize (H n (Nat.lt_succ_diag_r n)) as Hn.
  assert (bsum n f <= bsum n g) by (apply IH; auto). lra.
Qed.

Lemma bsum_nonneg (n : nat) (f : nat -> R) :
  (forall i, (i < n)%nat -> 0 <= f i) -> 0 <= bsum n f.
Proof.
  induction n as [|n IH]; intros H; [unfold bsum; simpl; lra|].
  rewrite bsum_S. specialize (H n (Nat.lt_succ_diag_r n)) as Hn.
  assert (0 <= bsum n f) by (apply IH; auto). lra.
Qed.

Lemma bsum_plus (n : nat) (f g : nat -> R) :
  bsum n (fun i => f i + g i) = bsum n f + bsum n g.
Proof.
  induction n as [|n IH]; [unfold bsum; simpl; lra|].
  rewrite !bsum_S, IH. lra.
Qed.

Lemma bsum_minus (n : nat) (f g : nat -> R) :
  bsum n (fun i => f i - g i) = bsum n f - bsum n g.
Proof.
  induction n as [|n IH]; [unfold bsum; simpl; lra|].
  rewrite !bsum_S, IH. lra.
Qed.

Lemma bsum_scale (n : nat) (c : R) (f : nat -> R) :
  bsum n (fun i => c * f i) = c * bsum n f.
Proof.
  induction n as [|n IH]; [unfold bsum; simpl; lra|].
  rewrite !bsum_S, IH. lra.
Qed.

Lemma bsum_scale_r (n : nat) (c : R) (f : nat -> R) :
  bsum n (fun i => f i * c) = bsum n f * c.
Proof.
  induction n as [|n IH]; [unfold bsum; simpl; lra|].
  rewrite !bsum_S, IH. lra.
Qed.

Lemma bsum_zero (n : nat) : bsum n (fun _ => 0) = 0.
Proof.
  induction n as [|n IH]; [reflexivity|]. rewrite bsum_S, IH. lra.
Qed.

Lemma bsum_swap (m n : nat) (f : nat -> nat -> R) :
  bsum m (fun i => bsum n (fun j => f i j)) =
  bsum n (fun j => bsum m (fun i => f i j)).
Proof.
  induction m as [|m IH].
  - rewrite (bsum_ext n _ (fun _ => 0)) by reflexivity.
    now rewrite bsum_zero.
  - rewrite bsum_S, IH, <- bsum_plus. apply bsum_ext. intros j _.
    now rewrite bsum_S.
Qed.

Lemma vsum_bsum (v : vec) : vsum v = bsum (length v) (fun i => nth i v 0).
Proof. unfold bsum. now rewrite <- list_as_nth. Qed.

Lemma square_nonneg (a : R) : 0 <= a * a.
Proof. nra. Qed.

Lemma square_le (a b : R) : 0 <= b -> a * a <= b * b -> a <= b.
Proof. intros Hb H. destruct (Rle_or_lt a b); [assumption | nra]. Qed.

(** The weighted Cauchy-Schwarz bound
    [(sum w u)^2 <= (sum w) (sum w u^2)] for weights [w >= 0]. *)
Lemma weighted_cauchy_schwarz (n : nat) (w u : nat -> R) :
  (forall a, (a < n)%nat -> 0 <= w a) ->
  bsum n (fun a => w a * u a) * bsum n (fun a => w a * u a) <=
  bsum n w * bsum n (fun a => w a * (u a * u a)).
Proof.
  intros Hw.
  induction n as [|n IH]; [unfold bsum; simpl; lra|].
  rewrite !bsum_S.
  assert (Hn : 0 <= w n) by (apply Hw; lia).
  assert (HS : 0 <= bsum n w) by (apply bsum_nonneg; intros; apply Hw; lia).
  assert (HQ : 0 <= bsum n (fun a => w a * (u a * u a))).
  { apply bsum_nonneg. intros a Ha.
    assert (0 <= w a) by (apply Hw; lia). nra. }
  specialize (IH (fun a Ha => Hw a (Nat.lt_lt_succ_r _ _ Ha))).
  set (T := bsum n (fun a => w a * u a)) in *.
  set (Sw := bsum n w) in *.
  set (Q := bsum n (fun a => w a * (u a * u a))) in *.
  set (x := u n). set (c := w n) in *. clearbody T Sw Q x c.
  assert (Hxx : 0 <= x * x) by nra.
  assert (HSx : 0 <= Sw * (x * x)) by now apply Rmult_le_pos.
  assert (Hmix : 2 * T * x <= Sw * (x * x) + Q).
  { apply square_le; [lra|].
    pose proof (square_nonneg (Sw * (x * x) - Q)) as H1.
    assert (H2 : T * T * (x * x) <= Sw * Q * (x * x))
      by (apply Rmult_le_compat_r; assumption).
    replace (2 * T * x * (2 * T * x)) with (4 * (T * T * (x * x))) by ring.
    replace ((Sw * (x * x) + Q) * (Sw * (x * x) + Q))
      with ((Sw * (x * x) - Q) * (Sw * (x * x) - Q)
            + 4 * (Sw * Q * (x * x))) by ring.
    lra. }
  replace ((T + c * x) * (T + c * x))
    with (T * T + c * (2 * T * x) + c * c * (x * x)) by ring.
  replace ((Sw + c) * (Q + c * (x * x)))
    with (Sw * Q + c * (Sw * (x * x) + Q) + c * c * (x * x)) by ring.
  assert (c * (2 * T * x) <= c * (Sw * (x * x) + Q))
    by (apply Rmult_le_compat_l; assumption).
  lra.
Qed.

(** ** What the vector returned by [sparse_opt] always satisfies *)

Lemma vsum_zeros (n : nat) : vsum (zeros n) = 0.
Proof.
  unfold zeros, vsum. induction n as [|n IH]; simpl; [reflexivity|].
  rewrite IH. lra.
Qed.

Lemma skipn_zeros (j n : nat) : skipn j (zeros n) = zeros (n - j).
Proof.
  unfold zeros. revert n; induction j as [|j IH]; intros [|n]; simpl; auto.
Qed.

Lemma vsum_skipn_zeros (j n : nat) : vsum (skipn j (zeros n)) = 0.
Proof.
  rewrite skipn_zeros. apply vsum_zeros.
Qed.

Lemma vmul_app (u v : vec) : vmul (u ++ v) (u ++ v) = vmul u u ++ vmul v v.
Proof.
  unfold vmul. induction u as [|x u IH]; simpl; [reflexivity|].
  now rewrite IH.
Qed.

Lemma vmul_skipn_zeros (j n : nat) :
  vsum (vmul (skipn j (zeros n)) (skipn j (zeros n))) = 0.
Proof.
  rewrite skipn_zeros. unfold zeros, vsum, vmul.
  induction (n - j)%nat as [|k IH]; simpl; [reflexivity|].
  rewrite IH. lra.
Qed.

Lemma vsum_map_shift (c d : R) (l : vec) :
  vsum (map (fun x => (x + c) / d) l) =
  (vsum l + IZR (Z.of_nat (length l)) * c) / d.
Proof.
  induction l as [|x l IH]; [simpl; unfold Rdiv; ring|].
  cbn [map vsum fold_right length].
  fold (vsum (map (fun x => (x + c) / d) l)). fold (vsum l).
  rewrite IH, Nat2Z.inj_succ, succ_IZR. unfold Rdiv. ring.
Qed.

Lemma vsum_map_shift_sq (c d : R) (l : vec) :
  vsum (vmul (map (fun x => (x + c) / d) l) (map (fun x => (x + c) / d) l)) =
  (vsum (vmul l l) + 2 * c * vsum l + IZR (Z.of_nat (length l)) * (c * c))
  * (/ d * / d).
Proof.
  induction l as [|x l IH]; [simpl; ring|].
  cbn [map vsum fold_right length vmul map2].
  fold (vmul (map (fun x => (x + c) / d) l) (map (fun x => (x + c) / d) l)).
  fold (vsum (vmul (map (fun x => (x + c) / d) l)
                   (map (fun x => (x + c) / d) l))).
  fold (vmul l l). fold (vsum (vmul l l)). fold (vsum l).
  rewrite IH, Nat2Z.inj_succ, succ_IZR. unfold Rdiv. ring.
Qed.

(** When [lam] is not 0, the entries of the result add up to [k] and
    their squares to 1.  The L1 norm is the sum of the entries only when
    none of them is negative. *)
Lemma sparse_opt_sum_and_norm (b z : vec) (k : R) :
  (sparse_opt_bot k < Z.of_nat (length b))%Z ->
  0 < sparse_opt_lam b k ->
  sparse_opt b k = Ok z ->
  vsum z = k /\ vsum (vmul z z) = 1.
Proof.
  intros Hm Hlam Hz.
  pose proof (sparse_opt_p_range b k Hm) as Hp.
  pose proof (sparse_opt_bot_nonneg k) as Hbot.
  pose proof (sparse_opt_bot_bound k) as Hkk.
  unfold sparse_opt in Hz.
  destruct (Z.leb_spec (Z.of_nat (length b)) (sparse_opt_bot k)); [lia|].
  injection Hz as <-.
  unfold sparse_opt_mue. unfold sparse_opt_lam in *.
  set (p := sparse_opt_p b k) in *.
  assert (HP : (Z.to_nat p < length b)%nat) by lia.
  replace (Z.to_nat (p + 1)) with (S (Z.to_nat p)) by lia.
  rewrite (cumsum_nth b (Z.to_nat p) HP).
  rewrite (sparse_opt_y_nth b k (Z.to_nat p) HP) in *. cbv zeta in *.
  set (l := firstn (S (Z.to_nat p)) b) in *.
  assert (Hlen : length l = S (Z.to_nat p))
    by (unfold l; rewrite length_firstn; lia).
  replace (Z.of_nat (S (Z.to_nat p))) with (p + 1)%Z in * by lia.
  assert (Hn : IZR (sparse_opt_bot k) + 1 <= IZR (p + 1)).
  { rewrite <- plus_IZR. apply IZR_le. lia. }
  set (n := IZR (p + 1)) in *.
  set (s := vsum l) in *. set (q := vsum (vmul l l)) in *.
  set (y := (n * q - s * s) / (n - k * k)) in *.
  set (lam := sqrt y) in *.
  assert (Hy : 0 <= y).
  { destruct (Rle_or_lt 0 y) as [H0|H0]; [assumption|].
    unfold lam in Hlam. rewrite sqrt_neg_0 in Hlam by lra. lra. }
  assert (Hl2 : lam * lam * (n - k * k) = n * q - s * s).
  { unfold lam. rewrite sqrt_sqrt by assumption. unfold y. field. lra. }
  assert (Hnz : n <> 0) by (pose proof (square_nonneg k); lra).
  set (mue := - s / n + k / n * lam).
  assert (Hmue : n * mue = - s + k * lam) by (unfold mue; field; exact Hnz).
  rewrite vsum_app, vmul_app, vsum_app, vsum_skipn_zeros, vmul_skipn_zeros.
  rewrite vsum_map_shift, vsum_map_shift_sq, Hlen.
  replace (Z.of_nat (S (Z.to_nat p))) with (p + 1)%Z by lia. fold n s q.
  split.
  - rewrite Hmue. field. lra.
  - assert (Hnum : n * (q + 2 * mue * s + n * (mue * mue))
                   = n * (lam * lam)).
    { replace (n * (q + 2 * mue * s + n * (mue * mue)))
        with (n * q + 2 * (n * mue) * s + (n * mue) * (n * mue)) by ring.
      rewrite Hmue.
      replace (n * (lam * lam))
        with (lam * lam * (n - k * k) + k * k * (lam * lam)) by ring.
      rewrite Hl2. ring. }
    apply Rmult_eq_reg_l in Hnum; [|exact Hnz].
    rewrite Hnum. field. lra.
Qed.

(** This is the ratio of the claim when no entry is negative. *)
Lemma sparse_opt_ratio_when_nonneg (b z : vec) (k : R) :
  (sparse_opt_bot k < Z.of_nat (length b))%Z ->
  0 < sparse_opt_lam b k ->
  sparse_opt b k = Ok z -> nonneg_vec z ->
  norm1 z / norm2 z = k.
Proof.
  intros Hm Hlam Hz Hnn.
  destruct (sparse_opt_sum_and_norm b z k Hm Hlam Hz) as [Hs Hq].
  unfold norm2. rewrite Hq, sqrt_1.
  assert (H1 : norm1 z = vsum z).
  { unfold norm1. clear Hs Hq Hz. induction Hnn as [|x z Hx Hnn IH];
      [reflexivity|].
    cbn [map vsum fold_right]. fold (vsum (map Rabs z)). fold (vsum z).
    rewrite IH, Rabs_pos_eq by assumption. reflexivity. }
  rewrite H1, Hs. field.
Qed.

(** ** The multiplicative rule on one column

    For one column [x] of [X] and the matching column [h] of [H], the
    rule of line 95 is the minimiser of a separable quadratic bound on
    [|x - W h|^2 + 2 eps (sum h)], so it does not increase that sum. *)

Section MultiplicativeStep.

Variables (m r : nat) (W : nat -> nat -> R) (x h : nat -> R) (eps : R).

Hypothesis W_nonneg : forall i a, (i < m)%nat -> (a < r)%nat -> 0 <= W i a.
Hypothesis h_nonneg : forall a, (a < r)%nat -> 0 <= h a.
Hypothesis eps_pos : 0 < eps.


Let Wh (i : nat) : R := bsum r (fun a => W i a * h a).
Let u (a : nat) : R :=
  (col_wtwh m r W h a + eps - col_wtx m W x a) / (col_wtwh m r W h a + eps).
Let v (i : nat) : R := bsum r (fun a => W i a * (h a * u a)).

Lemma col_wtwh_as_rows (a : nat) :
  col_wtwh m r W h a = bsum m (fun i => W i a * Wh i).
Proof.
  unfold col_wtwh, gram, Wh.
  rewrite (bsum_ext r _ (fun b => bsum m (fun i => W i a * (W i b * h b)))).
  2:{ intros b _. rewrite <- bsum_scale_r. apply bsum_ext. intros; ring. }
  rewrite bsum_swap. apply bsum_ext. intros i _. now rewrite bsum_scale.
Qed.

Lemma col_wtwh_nonneg (a : nat) : (a < r)%nat -> 0 <= col_wtwh m r W h a.
Proof.
  intros Ha. unfold col_wtwh, gram. apply bsum_nonneg. intros b Hb.
  apply Rmult_le_pos; [|auto].
  apply bsum_nonneg. intros i Hi. apply Rmult_le_pos; auto.
Qed.

Lemma col_step_split (a : nat) :
  (a < r)%nat -> col_step m r W x h eps a = h a - h a * u a.
Proof.
  intros Ha. pose proof (col_wtwh_nonneg a Ha). unfold col_step, u.
  field. lra.
Qed.

Lemma col_error_step :
  col_error m r W x (col_step m r W x h eps) =
  col_error m r W x h + 2 * bsum m (fun i => (x i - Wh i) * v i)
  + bsum m (fun i => v i * v i).
Proof.
  unfold col_error. rewrite <- bsum_scale, <- !bsum_plus.
  apply bsum_ext. intros i Hi.
  assert (Hs : bsum r (fun a => W i a * col_step m r W x h eps a) = Wh i - v i).
  { unfold Wh, v. rewrite <- bsum_minus. apply bsum_ext. intros a Ha.
    rewrite (col_step_split a Ha). ring. }
  rewrite Hs. fold (Wh i). ring.
Qed.

Lemma cross_term :
  bsum m (fun i => (x i - Wh i) * v i) =
  bsum r (fun a => h a * u a * (col_wtx m W x a - col_wtwh m r W h a)).
Proof.
  unfold v.
  rewrite (bsum_ext m _ (fun i => bsum r (fun a =>
             h a * u a * (W i a * x i - W i a * Wh i)))).
  2:{ intros i _. rewrite <- bsum_scale. apply bsum_ext. intros; ring. }
  rewrite bsum_swap. apply bsum_ext. intros a _.
  rewrite bsum_scale, bsum_minus, <- col_wtwh_as_rows. reflexivity.
Qed.

Lemma square_term :
  bsum m (fun i => v i * v i) <=
  bsum r (fun a => h a * (u a * u a) * col_wtwh m r W h a).
Proof.
  apply Rle_trans with
    (bsum m (fun i => Wh i * bsum r (fun a => W i a * h a * (u a * u a)))).
  - apply bsum_le. intros i Hi. unfold v, Wh.
    rewrite (bsum_ext r (fun a => W i a * (h a * u a))
               (fun a => W i a * h a * u a)) by (intros; ring).
    apply weighted_cauchy_schwarz. intros a Ha.
    apply Rmult_le_pos; auto.
  - apply Req_le.
    rewrite (bsum_ext m _ (fun i => bsum r (fun a =>
               h a * (u a * u a) * (W i a * Wh i)))).
    2:{ intros i _. rewrite <- bsum_scale. apply bsum_ext. intros; ring. }
    rewrite bsum_swap. apply bsum_ext. intros a _.
    now rewrite bsum_scale, <- col_wtwh_as_rows.
Qed.

(** One application of the rule to a column does not increase
    [|x - W h|^2 + 2 eps (sum h)]. *)
Lemma col_step_descent :
  col_error m r W x (col_step m r W x h eps)
  + 2 * eps * bsum r (col_step m r W x h eps) <=
  col_error m r W x h + 2 * eps * bsum r h.
Proof.
  rewrite col_error_step, cross_term.
  assert (Hsum : bsum r (col_step m r W x h eps)
                 = bsum r h - bsum r (fun a => h a * u a)).
  { rewrite <- bsum_minus. apply bsum_ext. intros a Ha.
    apply col_step_split; assumption. }
  rewrite Hsum. pose proof square_term as Hsq.
  set (Sq := bsum m (fun i => v i * v i)) in *.
  set (B := bsum r (fun a => h a * (u a * u a) * col_wtwh m r W h a)) in *.
  assert (Hlin : bsum r (fun a => h a * u a
                                      * (col_wtx m W x a - col_wtwh m r W h a))
                 - eps * bsum r (fun a => h a * u a)
                 = - bsum r (fun a => h a * (u a * u a)
                                      * (col_wtwh m r W h a + eps))).
  { assert (E : bsum r (fun a => h a * u a
                                   * (col_wtx m W x a - col_wtwh m r W h a)
                                  - eps * (h a * u a))
                 = bsum r (fun a => -1 * (h a * (u a * u a)
                                          * (col_wtwh m r W h a + eps)))).
    { apply bsum_ext. intros a Ha.
      pose proof (col_wtwh_nonneg a Ha). unfold u. field. lra. }
    rewrite bsum_minus, !bsum_scale in E. lra. }
  assert (Hneg : B <= bsum r (fun a => h a * (u a * u a)
                                       * (col_wtwh m r W h a + eps))).
  { unfold B. apply bsum_le. intros a Ha.
    pose proof (h_nonneg a Ha). pose proof (square_nonneg (u a)).
    assert (0 <= h a * (u a * u a)) by now apply Rmult_le_pos.
    nra. }
  assert (Hpos : 0 <= bsum r (fun a => h a * (u a * u a)
                                       * (col_wtwh m r W h a + eps))).
  { apply bsum_nonneg. intros a Ha.
    pose proof (h_nonneg a Ha). pose proof (square_nonneg (u a)).
    pose proof (col_wtwh_nonneg a Ha).
    apply Rmult_le_pos; [now apply Rmult_le_pos | lra]. }
  clearbody Sq B. lra.
Qed.

End MultiplicativeStep.

(** ** Entries of the arrays built by the numpy operations *)

Lemma get_map2 (f : R -> R -> R) (A B : matrix) (m n i j : nat) :
  has_shape A m n = true -> has_shape B m n = true ->
  (i < m)%nat -> (j < n)%nat ->
  get (map2 (map2 f) A B) i j = f (get A i j) (get B i j).
Proof.
  intros HA HB Hi Hj. unfold get.
  pose proof (has_shape_rows A m n HA). pose proof (has_shape_rows B m n HB).
  pose proof (has_shape_row A m n i HA Hi).
  pose proof (has_shape_row B m n i HB Hi).
  unfold vec in *.
  rewrite (map2_nth (map2 f) A B i [] [] []) by lia.
  apply map2_nth; lia.
Qed.

Lemma map2_shape (f : R -> R -> R) (A B : matrix) (m n : nat) :
  has_shape A m n = true -> has_shape B m n = true ->
  has_shape (map2 (map2 f) A B) m n = true.
Proof.
  intros HA HB. apply has_shape_spec in HA as [HA1 HA2].
  apply has_shape_spec in HB as [HB1 HB2]. apply has_shape_spec.
  unfold vec in *. split.
  - rewrite map2_length. lia.
  - clear HA1 HB1. revert B HB2.
    induction HA2 as [|a A Ha HA IH]; intros B HB2; [constructor|].
    destruct HB2 as [|b B Hb HB]; simpl; constructor; auto.
    rewrite map2_length. lia.
Qed.

Lemma get_mshift (c : R) (A : matrix) (m n i j : nat) :
  has_shape A m n = true -> (i < m)%nat -> (j < n)%nat ->
  get (mshift c A) i j = get A i j + c.
Proof.
  intros HA Hi Hj.
  pose proof (has_shape_rows A m n HA).
  pose proof (has_shape_row A m n i HA Hi).
  unfold get, mshift, vshift, matrix, vec in *.
  rewrite (map_nth_in _ _ i []) by lia.
  now rewrite (map_nth_in _ _ j 0) by lia.
Qed.

Lemma mshift_shape (c : R) (A : matrix) (m n : nat) :
  has_shape A m n = true -> has_shape (mshift c A) m n = true.
Proof.
  intros HA. apply has_shape_spec in HA as [HA1 HA2].
  apply has_shape_spec. unfold mshift, vshift, matrix, vec in *. split.
  - now rewrite length_map.
  - rewrite Forall_map. eapply Forall_impl; [|exact HA2].
    cbv beta. intros a Ha. now rewrite length_map.
Qed.

Lemma vdot_bsum (u v : vec) (k : nat) :
  length u = k -> length v = k ->
  vdot u v = bsum k (fun l => nth l u 0 * nth l v 0).
Proof.
  intros Hu Hv. unfold vdot. rewrite vsum_bsum.
  unfold vmul. rewrite map2_length, Hu, Hv, Nat.min_id.
  apply bsum_ext. intros l Hl. apply map2_nth; lia.
Qed.

Lemma get_dot (A B : matrix) (m k n i j : nat) :
  has_shape A m k = true -> has_shape B k n = true -> (0 < k)%nat ->
  (i < m)%nat -> (j < n)%nat ->
  get (dot A B) i j = bsum k (fun l => get A i l * get B l j).
Proof.
  intros HA HB Hk Hi Hj. unfold dot.
  rewrite (has_shape_cols B k n HB Hk). unfold get at 1.
  pose proof (has_shape_rows A m k HA). unfold matrix, vec in *.
  rewrite (map_nth_in _ _ i []) by lia.
  rewrite (map_nth_in _ _ j O) by (rewrite length_seq; lia).
  rewrite seq_nth by lia. cbn [plus].
  rewrite (vdot_bsum _ _ k).
  - apply bsum_ext. intros l Hl. rewrite col_nth; [reflexivity|].
    rewrite (has_shape_rows B k n HB). exact Hl.
  - apply (has_shape_row A m k i HA Hi).
  - rewrite col_length. apply (has_shape_rows B k n HB).
Qed.

Lemma get_transpose (A : matrix) (m n i j : nat) :
  has_shape A m n = true -> (i < m)%nat -> (j < n)%nat ->
  get (transpose A) j i = get A i j.
Proof.
  intros HA Hi Hj. unfold transpose.
  rewrite (has_shape_cols A m n HA) by lia. unfold get at 1.
  unfold matrix, vec in *.
  rewrite (map_nth_in _ _ j O) by (rewrite length_seq; lia).
  rewrite seq_nth by lia. cbn [plus]. apply col_nth.
  rewrite (has_shape_rows A m n HA). exact Hi.
Qed.

Lemma vsum_rows (A : matrix) (f : vec -> R) :
  vsum (map f A) = bsum (length A) (fun i => f (nth i A [])).
Proof.
  rewrite vsum_bsum, length_map. apply bsum_ext. intros i Hi.
  unfold matrix, vec in *. now rewrite (map_nth_in _ _ i []).
Qed.

Lemma sumsq_bsum (A : matrix) (m n : nat) :
  has_shape A m n = true ->
  sumsq A = bsum m (fun i => bsum n (fun j => get A i j * get A i j)).
Proof.
  intros HA. unfold sumsq. rewrite vsum_rows, (has_shape_rows A m n HA).
  apply bsum_ext. intros i Hi.
  pose proof (has_shape_row A m n i HA Hi) as Hr.
  fold (vdot (nth i A []) (nth i A [])).
  now rewrite (vdot_bsum _ _ n).
Qed.

Lemma sumsq_nonneg (A : matrix) : 0 <= sumsq A.
Proof.
  unfold sumsq. apply vsum_nonneg. rewrite Forall_map.
  apply Forall_forall. intros r _. apply vsum_nonneg.
  induction r as [|x r IH]; simpl; constructor; [nra | exact IH].
Qed.

Lemma msum_bsum (A : matrix) (m n : nat) :
  has_shape A m n = true ->
  msum A = bsum m (fun i => bsum n (fun j => get A i j)).
Proof.
  intros HA. unfold msum. rewrite vsum_rows, (has_shape_rows A m n HA).
  apply bsum_ext. intros i Hi.
  pose proof (has_shape_row A m n i HA Hi) as Hr.
  now rewrite vsum_bsum, Hr.
Qed.

Lemma nonneg_get (A : matrix) (i j : nat) : nonneg A -> 0 <= get A i j.
Proof.
  intros HA. unfold get.
  destruct (Nat.lt_ge_cases i (length A)) as [Hi|Hi].
  - assert (Hr : nonneg_vec (nth i A [])).
    { unfold nonneg in HA. rewrite Forall_forall in HA.
      apply HA, nth_In, Hi. }
    destruct (Nat.lt_ge_cases j (length (nth i A []))) as [Hj|Hj].
    + unfold nonneg_vec in Hr. rewrite Forall_forall in Hr.
      apply Hr, nth_In, Hj.
    + rewrite nth_overflow by assumption. lra.
  - rewrite (nth_overflow A) by assumption. destruct j; simpl; lra.
Qed.

Lemma nonneg_of_get (A : matrix) (m n : nat) :
  has_shape A m n = true ->
  (forall i j, (i < m)%nat -> (j < n)%nat -> 0 <= get A i j) -> nonneg A.
Proof.
  intros HA H. pose proof (has_shape_rows A m n HA) as Hm.
  unfold nonneg, nonneg_vec, get in *.
  apply Forall_nth. intros i d Hi.
  pose proof (has_shape_row A m n i HA ltac:(lia)) as Hr.
  rewrite (nth_indep A d []) by assumption.
  apply Forall_nth. intros j d' Hj.
  rewrite (nth_indep (nth i A []) d' 0) by assumption. apply H; lia.
Qed.

(** ** [update_H] and the penalised error *)

Section UpdateH.

Variables (X W H : matrix) (m n r : nat).

Hypothesis X_shape : has_shape X m n = true.
Hypothesis W_shape : has_shape W m r = true.
Hypothesis m_pos : (0 < m)%nat.
Hypothesis r_pos : (0 < r)%nat.

Lemma WtX_shape : has_shape (dot (transpose W) X) r n = true.
Proof.
  apply dot_shape.
  - apply (has_shape_rows _ r m). now apply transpose_shape.
  - now apply (has_shape_cols X m n).
Qed.

Lemma WtW_shape : has_shape (dot (transpose W) W) r r = true.
Proof.
  apply dot_shape.
  - apply (has_shape_rows _ r m). now apply transpose_shape.
  - now apply (has_shape_cols W m r).
Qed.

Lemma get_WtX (a j : nat) :
  (a < r)%nat -> (j < n)%nat ->
  get (dot (transpose W) X) a j = col_wtx m (get W) (fun i => get X i j) a.
Proof.
  intros Ha Hj.
  rewrite (get_dot _ _ r m n) by (auto using transpose_shape).
  apply bsum_ext. intros i Hi.
  now rewrite (get_transpose W m r i a).
Qed.

Lemma get_WtW (a b : nat) :
  (a < r)%nat -> (b < r)%nat ->
  get (dot (transpose W) W) a b = gram m (get W) a b.
Proof.
  intros Ha Hb.
  rewrite (get_dot _ _ r m r) by (auto using transpose_shape).
  apply bsum_ext. intros i Hi.
  now rewrite (get_transpose W m r i a).
Qed.

Lemma penalised_as_columns (K : matrix) :
  has_shape K r n = true ->
  penalised_error X W K =
  bsum n (fun j => col_error m r (get W) (fun i => get X i j)
                     (fun a => get K a j)
                   + 2 * spacing1 * bsum r (fun a => get K a j)).
Proof.
  intros HK. unfold penalised_error.
  assert (HWK : has_shape (dot W K) m n = true).
  { apply dot_shape; [now apply (has_shape_rows W m r)|].
    now apply (has_shape_cols K r n). }
  rewrite (sumsq_bsum _ m n) by (now apply map2_shape).
  rewrite (msum_bsum K r n HK), bsum_swap, (bsum_swap r n).
  rewrite <- bsum_scale, <- bsum_plus.
  apply bsum_ext. intros j Hj. f_equal.
  unfold col_error. apply bsum_ext. intros i Hi.
  unfold msub, vsub. rewrite (get_map2 Rminus X (dot W K) m n) by auto.
  now rewrite (get_dot W K m r n) by auto.
Qed.

Hypothesis H_shape : has_shape H r n = true.

Let H' := update_H_step (dot (transpose W) X) (dot (transpose W) W) H.

Lemma WtWH_shape : has_shape (dot (dot (transpose W) W) H) r n = true.
Proof.
  apply dot_shape.
  - apply (has_shape_rows _ r r), WtW_shape.
  - now apply (has_shape_cols H r n).
Qed.

Lemma update_H_step_shape : has_shape H' r n = true.
Proof.
  unfold H', update_H_step, mdiv, mmul, vdiv, vmul.
  apply map2_shape.
  - apply map2_shape; [assumption | apply WtX_shape].
  - apply mshift_shape, WtWH_shape.
Qed.

Lemma update_H_step_entry (a j : nat) :
  (a < r)%nat -> (j < n)%nat ->
  get H' a j = col_step m r (get W) (fun i => get X i j)
                 (fun b => get H b j) spacing1 a.
Proof.
  intros Ha Hj. unfold H', update_H_step, mdiv, mmul, vdiv, vmul.
  rewrite (get_map2 Rdiv _ _ r n); auto.
  2:{ apply map2_shape; [assumption | apply WtX_shape]. }
  2:{ apply mshift_shape, WtWH_shape. }
  rewrite (get_map2 Rmult H _ r n); auto using WtX_shape.
  rewrite (get_mshift _ _ r n); auto using WtWH_shape.
  rewrite get_WtX by assumption.
  rewrite (get_dot _ H r r n); auto using WtW_shape.
  unfold col_step, col_wtwh. f_equal. f_equal.
  apply bsum_ext. intros b Hb. now rewrite get_WtW.
Qed.

Lemma spacing1_pos : 0 < spacing1.
Proof. unfold spacing1. apply Rinv_0_lt_compat, pow_lt. lra. Qed.

Hypothesis W_nonneg : nonneg W.
Hypothesis H_nonneg : nonneg H.

Lemma update_H_step_descent :
  penalised_error X W H' <= penalised_error X W H.
Proof.
  rewrite (penalised_as_columns H' update_H_step_shape).
  rewrite (penalised_as_columns H H_shape).
  apply bsum_le. intros j Hj.
  assert (Hcol : forall g, (forall a, (a < r)%nat -> get H' a j = g a) ->
            col_error m r (get W) (fun i => get X i j) (fun a => get H' a j)
            + 2 * spacing1 * bsum r (fun a => get H' a j)
            = col_error m r (get W) (fun i => get X i j) g
              + 2 * spacing1 * bsum r g).
  { intros g Hg. f_equal.
    - unfold col_error. apply bsum_ext. intros i Hi.
      assert (E : bsum r (fun a => get W i a * get H' a j)
                  = bsum r (fun a => get W i a * g a))
        by (apply bsum_ext; intros a Ha; now rewrite Hg).
      now rewrite E.
    - f_equal. now apply bsum_ext. }
  rewrite (Hcol _ (fun a Ha => update_H_step_entry a j Ha Hj)).
  apply col_step_descent.
  - intros i a _ _. now apply nonneg_get.
  - intros a _. now apply nonneg_get.
  - apply spacing1_pos.
Qed.

Hypothesis X_nonneg : nonneg X.

Lemma update_H_step_nonneg : nonneg H'.
Proof.
  apply (nonneg_of_get H' r n update_H_step_shape). intros a j Ha Hj.
  rewrite update_H_step_entry by assumption. unfold col_step.
  assert (Hc : 0 <= col_wtx m (get W) (fun i => get X i j) a).
  { apply bsum_nonneg. intros i _.
    apply Rmult_le_pos; now apply nonneg_get. }
  assert (Hd : 0 <= col_wtwh m r (get W) (fun b => get H b j) a).
  { apply col_wtwh_nonneg; auto; intros; now apply nonneg_get. }
  pose proof spacing1_pos. pose proof (nonneg_get H a j H_nonneg).
  apply Rmult_le_pos; [now apply Rmult_le_pos|].
  left. apply Rinv_0_lt_compat. lra.
Qed.

End UpdateH.

Lemma msum_nonneg (A : matrix) : nonneg A -> 0 <= msum A.
Proof.
  intros HA. unfold msum. apply vsum_nonneg. rewrite Forall_map.
  eapply Forall_impl; [|exact HA]. intros r Hr. now apply vsum_nonneg.
Qed.

Lemma reconstruction_error_sqr (X W H : matrix) :
  reconstruction_error X W H * reconstruction_error X W H
  = sumsq (msub X (dot W H)).
Proof.
  unfold reconstruction_error, norm_fro. apply sqrt_sqrt, sumsq_nonneg.
Qed.

(** Any number of passes of line 95 keeps the shape and the sign of [H]
    and does not increase the penalised error. *)
Lemma update_H_iter_descent (X W H : matrix) (m n r k : nat) :
  has_shape X m n = true -> has_shape W m r = true ->
  has_shape H r n = true -> (0 < m)%nat -> (0 < r)%nat ->
  nonneg X -> nonneg W -> nonneg H ->
  let Hk := Nat.iter k (update_H_step (dot (transpose W) X)
                                      (dot (transpose W) W)) H in
  has_shape Hk r n = true /\ nonneg Hk /\
  penalised_error X W Hk <= penalised_error X W H.
Proof.
  intros HX HW HH Hm Hr NX NW NH. induction k as [|k (IH1 & IH2 & IH3)].
  - simpl. repeat split; auto. lra.
  - cbn [Nat.iter]. repeat split.
    + now apply (update_H_step_shape X W _ m n r).
    + now apply (update_H_step_nonneg X W _ m n r).
    + eapply Rle_trans; [|exact IH3].
      now apply (update_H_step_descent X W _ m n r).
Qed.

(** C6 (as amended).  For non-negative [X], [W], [H] of consistent
    shapes, one pass of the rule of line 95, and so [update_H] with its
    ten passes, does not increase the squared reconstruction error plus
    the penalty [2 eps (sum of H)], where [eps = np.spacing(1)] is the
    term added to the denominator; the squared error after [update_H]
    exceeds the one before by at most [2 eps (sum of H)]. *)
Theorem update_H_penalised_descent (X W H : matrix) (m n r : nat) :
  has_shape X m n = true -> has_shape W m r = true ->
  has_shape H r n = true -> (0 < m)%nat -> (0 < r)%nat ->
  nonneg X -> nonneg W -> nonneg H ->
  penalised_error X W
    (update_H_step (dot (transpose W) X) (dot (transpose W) W) H)
  <= penalised_error X W H /\
  penalised_error X W (update_H X W H) <= penalised_error X W H /\
  reconstruction_error X W (update_H X W H)
  * reconstruction_error X W (update_H X W H)
  <= reconstruction_error X W H * reconstruction_error X W H
     + 2 * spacing1 * msum H.
Proof.
  intros HX HW HH Hm Hr NX NW NH.
  destruct (update_H_iter_descent X W H m n r 10 HX HW HH Hm Hr NX NW NH)
    as (_ & N10 & D10).
  fold (update_H X W H) in N10, D10.
  split; [now apply (update_H_step_descent X W H m n r)|].
  split; [exact D10|].
  rewrite !reconstruction_error_sqr. unfold penalised_error in D10.
  pose proof (msum_nonneg _ N10). pose proof spacing1_pos.
  assert (0 <= 2 * spacing1 * msum (update_H X W H))
    by (apply Rmult_le_pos; lra).
  lra.
Qed.

(** ** The generator, the phase before the loop, and determinism *)

Section FactorizationFacts.

Variable G : generator.

(** C7.  With a seed and no factors supplied, the result of [sparse_nmf]
    (the returned pair or the exception, and the generator it leaves
    behind) is the same whatever state the generator was in before the
    call: two runs with identical arguments give identical [W] and [H]. *)
Theorem sparse_nmf_deterministic (X : matrix) (rank maxiter : nat) (spar : R)
  (seed : Z) (g1 g2 : rng G) :
  sparse_nmf G X rank maxiter spar (Some seed) None None g1 =
  sparse_nmf G X rank maxiter spar (Some seed) None None g2.
Proof.
  unfold sparse_nmf, sparse_nmf_init.
  unfold bindM at 1 2 3 4. unfold init_nmf. reflexivity.
Qed.

(** C8 (as amended).  Nothing checks the shapes of supplied factors before
    the loop: whatever their extents, [W] and [H] pass the phase before
    the loop unchanged and without an exception, the loop is entered with
    them, and with [maxiter = 0] they are returned as given. *)
Theorem supplied_factors_not_validated (X W H : matrix) (rank maxiter : nat)
  (spar : R) (seed : option Z) (g : rng G) :
  sparse_nmf_init G X rank spar seed (Some W) (Some H) g
  = (Ok (Some W, Some H), g) /\
  sparse_nmf G X rank maxiter spar seed (Some W) (Some H) g
  = (sparse_nmf_loop X spar (seq 0 maxiter) (Some W) (Some H)
       (zeros maxiter), g) /\
  sparse_nmf G X rank 0 spar seed (Some W) (Some H) g
  = (Ok (Some W, Some H), g).
Proof. repeat split. Qed.

(** C9.  [init_nmf] runs exactly when both factors are [None] (and then
    a missing seed is an [AssertionError]).  With one factor supplied
    nothing is initialised, the generator is left alone, no seed is asked
    for and nothing is raised before the loop: the missing factor is
    still [None] when the loop begins, and without iterations the pair is
    returned with the [None] in it. *)
Theorem init_only_when_both_missing (X : matrix) (rank maxiter : nat)
  (spar : R) (seed : option Z) (g : rng G) :
  (forall W H, sparse_nmf_init G X rank spar seed (Some W) H g
               = (Ok (Some W, H), g)) /\
  (forall W H, sparse_nmf_init G X rank spar seed W (Some H) g
               = (Ok (W, Some H), g)) /\
  sparse_nmf_init G X rank spar None None None g = (Raise AssertionError, g) /\
  (forall s, sparse_nmf_init G X rank spar (Some s) None None g
             = match init_nmf G X rank spar s g with
               | (Ok WH, g') => (Ok (Some (fst WH), Some (snd WH)), g')
               | (Raise e, g') => (Raise e, g')
               end) /\
  (forall W, sparse_nmf G X rank 0 spar seed (Some W) None g
             = (Ok (Some W, None), g)) /\
  (forall H, sparse_nmf G X rank 0 spar seed None (Some H) g
             = (Ok (None, Some H), g)) /\
  (forall W, sparse_nmf G X rank maxiter spar seed
               (Some W) None g
             = (sparse_nmf_loop X spar (seq 0 maxiter) (Some W) None
                  (zeros maxiter), g)) /\
  (forall H, sparse_nmf G X rank maxiter spar seed
               None (Some H) g
             = (sparse_nmf_loop X spar (seq 0 maxiter) None (Some H)
                  (zeros maxiter), g)).
Proof.
  repeat split.
  - intros [W|] H; reflexivity.
Qed.

End FactorizationFacts.

(** ** Evaluation on concrete inputs *)

Lemma sqrt_eq (x r : R) : 0 <= r -> x = r * r -> sqrt x = r.
Proof. intros Hr ->. now apply sqrt_square. Qed.

Lemma cons_eq {A : Type} (x y : A) (l l' : list A) :
  x = y -> l = l' -> x :: l = y :: l'.
Proof. now intros -> ->. Qed.

(** Replace a square root by its value, compare lists of reals entry by
    entry, and settle the comparisons of [sort] and [argmax]. *)
Ltac sqrt_value r :=
  match goal with
  | |- context [sqrt ?x] =>
      replace (sqrt x) with r by (symmetry; apply sqrt_eq; [lra | field])
  end.

Ltac vec_eq tac :=
  repeat match goal with
         | |- _ :: _ = _ :: _ => apply cons_eq; [tac|]
         end; try reflexivity.

Ltac decide_Rlt :=
  repeat (cbn [insert_key argmax_from fst snd];
          match goal with
          | |- context [Rlt_dec ?a ?b] => destruct (Rlt_dec a b); try lra
          end).

Lemma Zceil_value (x : R) (z : Z) : IZR z - 1 < x <= IZR z -> Zceil x = z.
Proof. apply Zceil_eq. Qed.

Lemma sparse_opt_bot_2 : sparse_opt_bot 2 = 4%Z.
Proof. apply Zceil_value. lra. Qed.

Lemma sparse_opt_bot_8_5 : sparse_opt_bot (8 / 5) = 3%Z.
Proof. apply Zceil_value. lra. Qed.

Lemma sparse_opt_p_b_neg : sparse_opt_p b_neg (8 / 5) = 3%Z.
Proof. unfold sparse_opt_p. rewrite sparse_opt_bot_8_5. reflexivity. Qed.

Lemma sparse_opt_b_neg : sparse_opt b_neg (8 / 5) = Ok z_neg.
Proof.
  unfold sparse_opt, sparse_opt_mue, sparse_opt_lam.
  rewrite sparse_opt_p_b_neg, sparse_opt_bot_8_5. simpl.
  sqrt_value (25 / 3). unfold z_neg. f_equal. vec_eq ltac:(field).
Qed.

Lemma ratio_target_4 : ratio_target 4 (2 / 5) = 8 / 5.
Proof.
  unfold ratio_target. simpl Z.of_nat. rewrite (sqrt_eq 4 2) by lra. lra.
Qed.

Lemma update_W_X_neg : update_W X_neg W_ones H_one (2 / 5) = Ok W_neg.
Proof.
  unfold update_W, update_W_sweep, W_sparse_ith.
  cbn [shape X_neg W_ones H_one length hd fst snd seq for_each].
  rewrite ratio_target_4.
  set (C := vneg _).
  assert (HC : C = b_neg).
  { unfold C, b_neg. simpl. unfold vdot, get, vsum, vmul. simpl.
    vec_eq ltac:(ring). }
  assert (Hs : rev (sort b_neg) = b_neg).
  { unfold b_neg, sort, sort_keys, keyed. simpl. decide_Rlt. reflexivity. }
  assert (Ha : rev (argsort b_neg) = [0; 1; 2; 3]%nat).
  { unfold b_neg, argsort, sort_keys, keyed. simpl. decide_Rlt.
    reflexivity. }
  rewrite HC, Hs, Ha, sparse_opt_b_neg. reflexivity.
Qed.

(** C1, at a failing input.  [b = [7, 4, 3, 0]] is sorted in decreasing
    order and [k = 8/5] passes the guard ([ceil(k^2) = 3 < 4]); the vector
    returned has a negative last entry, its L2 norm is 1 and its L1 norm
    is 41/25, so the ratio is 41/25 and not 8/5. *)
Theorem sparse_opt_ratio_off :
  descending b_neg /\
  (sparse_opt_bot (8 / 5) < Z.of_nat (length b_neg))%Z /\
  sparse_opt b_neg (8 / 5) = Ok z_neg /\
  norm1 z_neg / norm2 z_neg = 41 / 25 /\
  norm1 z_neg / norm2 z_neg <> 8 / 5.
Proof.
  assert (H1 : norm1 z_neg = 41 / 25).
  { unfold norm1, z_neg. simpl.
    repeat match goal with
           | |- context [Rabs ?x] =>
               first [rewrite (Rabs_pos_eq x) by lra
                     | rewrite (Rabs_left x) by lra]
           end.
    lra. }
  assert (H2 : norm2 z_neg = 1).
  { unfold norm2, z_neg. simpl. apply sqrt_eq; [lra | field]. }
  rewrite H1, H2, sparse_opt_bot_8_5.
  repeat split; simpl; try lra; try lia.
  apply sparse_opt_b_neg.
Qed.

(** C2, at a failing input.  All of [X], [W], [H] are non-negative, the
    rank is 1, there is one iteration and the sparsity is 2/5; the matrix
    [W] returned has a negative entry. *)
Theorem sparse_nmf_negative_entry :
  nonneg X_neg /\ nonneg W_ones /\ nonneg H_one /\
  sparse_nmf lcg X_neg 1 1 (2 / 5) None (Some W_ones) (Some H_one) 0%Z
  = (Ok (Some W_neg, Some (update_H X_neg W_neg H_one)), 0%Z) /\
  get W_neg 3 0 < 0.
Proof.
  repeat split.
  - repeat constructor; lra.
  - repeat constructor; lra.
  - repeat constructor; lra.
  - unfold sparse_nmf, sparse_nmf_init, bindM, retM, liftM.
    cbn [seq sparse_nmf_loop fst snd]. rewrite update_W_X_neg. reflexivity.
  - unfold W_neg, z_neg, get. simpl. lra.
Qed.

(** C3, at a failing input.  For [b = [9, 1, -3, -3, -6, -6]] and [k = 2]
    the search range is [{4, 5}] and [obj[4] < obj[5]], yet the
    truncation point used is 4: one less than the maximiser. *)
Theorem sparse_opt_p_misses_argmax :
  descending b_slip /\
  sparse_opt_bot 2 = 4%Z /\ length b_slip = 6%nat /\
  nth 4 (sparse_opt_obj b_slip 2) 0 = - 184 / 5 /\
  nth 5 (sparse_opt_obj b_slip 2) 0 = - 92 / 3 /\
  nth 4 (sparse_opt_obj b_slip 2) 0 < nth 5 (sparse_opt_obj b_slip 2) 0 /\
  sparse_opt_p b_slip 2 = 4%Z.
Proof.
  assert (H4 : nth 4 (sparse_opt_obj b_slip 2) 0 = - 184 / 5)
    by (simpl; sqrt_value 26; field).
  assert (H5 : nth 5 (sparse_opt_obj b_slip 2) 0 = - 92 / 3)
    by (simpl; sqrt_value 22; field).
  split; [simpl; lra|]. split; [apply sparse_opt_bot_2|].
  split; [reflexivity|]. repeat split.
  - exact H4.
  - exact H5.
  - rewrite H4, H5. lra.
  - unfold sparse_opt_p. rewrite sparse_opt_bot_2. simpl.
    sqrt_value 26. sqrt_value 22. decide_Rlt. reflexivity.
Qed.

(** C8, at an input with a wrong row count: [X] has two rows, the
    supplied [W] three.  Nothing is raised before the loop, and without
    iterations the factors come back as they were given. *)
Lemma wrong_row_count_accepted :
  has_shape [[1; 2]; [3; 4]] 2 2 = true /\
  has_shape [[1]; [1]; [1]] 2 1 = false /\
  sparse_nmf_init lcg [[1; 2]; [3; 4]] 1 (1 / 2) None
    (Some [[1]; [1]; [1]]) (Some [[1; 1]]) 0%Z
  = (Ok (Some [[1]; [1]; [1]], Some [[1; 1]]), 0%Z) /\
  sparse_nmf lcg [[1; 2]; [3; 4]] 1 0 (1 / 2) None
    (Some [[1]; [1]; [1]]) (Some [[1; 1]]) 0%Z
  = (Ok (Some [[1]; [1]; [1]], Some [[1; 1]]), 0%Z).
Proof. repeat split. Qed.

(** Instances of the theorems with hypotheses. *)

Lemma sparse_opt_lam_nonneg_witness :
  (sparse_opt_bot (8 / 5) <= sparse_opt_p b_neg (8 / 5)
   <= Z.of_nat (length b_neg) - 1)%Z /\
  0 < IZR (sparse_opt_p b_neg (8 / 5) + 1) - 8 / 5 * (8 / 5) /\
  0 <= nth (Z.to_nat (sparse_opt_p b_neg (8 / 5)))
           (sparse_opt_y b_neg (8 / 5)) 0 /\
  0 <= sparse_opt_lam b_neg (8 / 5) /\
  (0 < sparse_opt_lam b_neg (8 / 5) <->
   exists i, (i <= Z.to_nat (sparse_opt_p b_neg (8 / 5)))%nat /\
             nth i b_neg 0 <> nth 0 b_neg 0).
Proof.
  apply (sparse_opt_lam_nonneg b_neg (8 / 5)).
  rewrite sparse_opt_bot_8_5. simpl. lia.
Defined.

Lemma ratio_target_full (m : nat) : ratio_target m 1 = 1.
Proof. unfold ratio_target. ring. Qed.

Lemma update_W_cache_consistent_witness :
  exists W' cach',
    update_W_sweep (dot [[1; 2]] (transpose [[1; 2]])) 1 (seq 0 1)
      [[1]; [1]] (residual [[3; 1]; [2; 5]] [[1]; [1]] [[1; 2]])
    = Ok (W', cach') /\
    has_shape W' 2 1 = true /\
    cach' = residual [[3; 1]; [2; 5]] W' [[1; 2]].
Proof.
  apply (update_W_cache_consistent [[3; 1]; [2; 5]] [[1]; [1]] [[1; 2]] 1
           2 2 1 1); try reflexivity; try lia.
  rewrite ratio_target_full.
  replace (sparse_opt_bot 1) with 1%Z; [simpl; lia|].
  symmetry. apply Zceil_value. lra.
Defined.

Lemma ratio_target_dense_2 :
  sparse_opt_bot (ratio_target 2 0) = 2%Z.
Proof.
  unfold ratio_target. simpl Z.of_nat. apply Zceil_value.
  replace ((sqrt 2 - 0 * (sqrt 2 - 1)) * (sqrt 2 - 0 * (sqrt 2 - 1)))
    with (sqrt 2 * sqrt 2) by ring.
  rewrite sqrt_sqrt by lra. lra.
Qed.

Lemma sparse_opt_error_propagates_witness :
  sparse_nmf lcg [[1]; [1]] 1 1 0 None (Some [[1]; [1]]) (Some [[1]]) 0%Z
  = (Raise ValueError, 0%Z).
Proof.
  destruct (sparse_opt_error_propagates lcg) as (_ & _ & _ & _ & Hnmf & _).
  apply (Hnmf [[1]; [1]] [[1]; [1]] [[1]] 1%nat 1%nat 0 None 0%Z 2%nat 1%nat);
    try reflexivity; try lia.
  rewrite ratio_target_dense_2. simpl. lia.
Defined.

(** C6, at an input where the error grows: with [X = W = H = [[1]]] the
    reconstruction is exact before the update and no longer after one
    pass, nor after the ten passes of [update_H]. *)
Lemma update_H_increases_error :
  nonneg [[1]] /\
  reconstruction_error [[1]] [[1]] [[1]] = 0 /\
  0 < reconstruction_error [[1]] [[1]]
        (update_H_step (dot (transpose [[1]]) [[1]])
                       (dot (transpose [[1]]) [[1]]) [[1]]) /\
  0 < reconstruction_error [[1]] [[1]] (update_H [[1]] [[1]] [[1]]).
Proof.
  pose proof spacing1_pos as He.
  set (f := fun h : R => h * (1 * 1 + 0) / ((1 * 1 + 0) * h + 0 + spacing1)).
  assert (Hstep : forall h, update_H_step (dot (transpose [[1]]) [[1]])
                              (dot (transpose [[1]]) [[1]]) [[h]] = [[f h]])
    by reflexivity.
  assert (Hf : forall h, 0 < h <= 1 -> 0 < f h < 1).
  { intros h Hh. unfold f.
    replace (h * (1 * 1 + 0) / ((1 * 1 + 0) * h + 0 + spacing1))
      with (h / (h + spacing1)) by (field; lra).
    split.
    - apply Rdiv_lt_0_compat; lra.
    - apply (Rmult_lt_reg_r (h + spacing1)); [lra|].
      unfold Rdiv. rewrite Rmult_assoc, Rinv_l by lra. lra. }
  assert (Herr : forall h, 0 < h < 1 ->
                 0 < reconstruction_error [[1]] [[1]] [[h]]).
  { intros h Hh. unfold reconstruction_error, norm_fro, sumsq.
    simpl. unfold vdot, vsum, vmul. simpl.
    apply sqrt_lt_R0.
    pose proof (square_nonneg (1 - (1 * h + 0))).
    assert (0 < (1 - (1 * h + 0)) * (1 - (1 * h + 0)))
      by (apply Rmult_lt_0_compat; lra).
    lra. }
  repeat split.
  - repeat constructor; lra.
  - unfold reconstruction_error, norm_fro, sumsq. simpl.
    unfold vdot, vsum, vmul. simpl.
    apply sqrt_eq; [lra | ring].
  - rewrite Hstep. apply Herr, Hf. lra.
  - unfold update_H. cbv zeta.
    assert (Hk : forall k, exists h,
               Nat.iter (S k) (update_H_step (dot (transpose [[1]]) [[1]])
                                 (dot (transpose [[1]]) [[1]])) [[1]]
               = [[h]] /\ 0 < h < 1).
    { induction k as [|k (h & Hk & Hh)].
      - exists (f 1). split; [apply Hstep | apply Hf; lra].
      - exists (f h). change (Nat.iter (S (S k)) ?g ?a)
          with (g (Nat.iter (S k) g a)).
        rewrite Hk. split; [apply Hstep | apply Hf; lra]. }
    destruct (Hk 9%nat) as (h & -> & Hh). now apply Herr.
Qed.

Lemma update_H_penalised_descent_witness :
  penalised_error [[1; 2]; [3; 4]] [[1]; [1]]
    (update_H_step (dot (transpose [[1]; [1]]) [[1; 2]; [3; 4]])
                   (dot (transpose [[1]; [1]]) [[1]; [1]]) [[1; 1]])
  <= penalised_error [[1; 2]; [3; 4]] [[1]; [1]] [[1; 1]] /\
  penalised_error [[1; 2]; [3; 4]] [[1]; [1]]
    (update_H [[1; 2]; [3; 4]] [[1]; [1]] [[1; 1]])
  <= penalised_error [[1; 2]; [3; 4]] [[1]; [1]] [[1; 1]] /\
  reconstruction_error [[1; 2]; [3; 4]] [[1]; [1]]
    (update_H [[1; 2]; [3; 4]] [[1]; [1]] [[1; 1]])
  * reconstruction_error [[1; 2]; [3; 4]] [[1]; [1]]
      (update_H [[1; 2]; [3; 4]] [[1]; [1]] [[1; 1]])
  <= reconstruction_error [[1; 2]; [3; 4]] [[1]; [1]] [[1; 1]]
     * reconstruction_error [[1; 2]; [3; 4]] [[1]; [1]] [[1; 1]]
     + 2 * spacing1 * msum [[1; 1]].
Proof.
  apply (update_H_penalised_descent [[1; 2]; [3; 4]] [[1]; [1]] [[1; 1]]
           2 2 1); try reflexivity; try lia;
    repeat constructor; lra.
Defined.

(** * Further properties of the code *)

(** ** Which sparsity levels pass the guard of [sparse_opt] *)

Lemma sparse_opt_guard_iff (k : R) (m : nat) :
  (sparse_opt_bot k < Z.of_nat m)%Z <-> k * k <= IZR (Z.of_nat m) - 1.
Proof.
  unfold sparse_opt_bot. pose proof (Zceil_bound (k * k)) as [Hlo Hhi].
  split; intros H.
  - assert (IZR (Zceil (k * k)) <= IZR (Z.of_nat m - 1)) by (apply IZR_le; lia).
    rewrite minus_IZR in *. lra.
  - apply lt_IZR. lra.
Qed.

Lemma sqrt_IZR_pos (m : nat) : 0 <= sqrt (IZR (Z.of_nat m)).
Proof. apply sqrt_pos. Qed.

Lemma sqrt_m_sq (m : nat) :
  sqrt (IZR (Z.of_nat m)) * sqrt (IZR (Z.of_nat m)) = IZR (Z.of_nat m).
Proof. apply sqrt_sqrt, IZR_le. lia. Qed.

Lemma dense_target_bot (m : nat) :
  sparse_opt_bot (ratio_target m 0) = Z.of_nat m.
Proof.
  unfold sparse_opt_bot, ratio_target. apply Zceil_eq.
  replace ((sqrt (IZR (Z.of_nat m)) - 0 * (sqrt (IZR (Z.of_nat m)) - 1))
           * (sqrt (IZR (Z.of_nat m)) - 0 * (sqrt (IZR (Z.of_nat m)) - 1)))
    with (sqrt (IZR (Z.of_nat m)) * sqrt (IZR (Z.of_nat m))) by ring.
  rewrite sqrt_m_sq. lra.
Qed.

Lemma one_row_target (spar : R) : ratio_target 1 spar = 1.
Proof. unfold ratio_target. simpl Z.of_nat. rewrite sqrt_1. ring. Qed.

Lemma sqrt_m_gt_1 (m : nat) : (2 <= m)%nat -> 1 < sqrt (IZR (Z.of_nat m)).
Proof.
  intros Hm. rewrite <- sqrt_1. apply sqrt_lt_1; try lra.
  - apply IZR_le. lia.
  - apply IZR_lt. lia.
Qed.

(** For [spar <= 1] the target is at least 1. *)
Lemma ratio_target_ge_1 (m : nat) (spar : R) :
  (1 <= m)%nat -> spar <= 1 -> 1 <= ratio_target m spar.
Proof.
  intros Hm Hs. unfold ratio_target.
  assert (1 <= sqrt (IZR (Z.of_nat m))).
  { rewrite <- sqrt_1 at 1. apply sqrt_le_1; try lra.
    - apply IZR_le. lia.
    - apply IZR_le. lia. }
  nra.
Qed.

Lemma guard_threshold (m : nat) (spar : R) :
  (2 <= m)%nat -> spar <= 1 ->
  ((sparse_opt_bot (ratio_target m spar) < Z.of_nat m)%Z <->
   (sqrt (IZR (Z.of_nat m)) - sqrt (IZR (Z.of_nat m) - 1))
   / (sqrt (IZR (Z.of_nat m)) - 1) <= spar).
Proof.
  intros Hm Hs. rewrite sparse_opt_guard_iff.
  pose proof (sqrt_m_gt_1 m Hm) as Hsm.
  pose proof (ratio_target_ge_1 m spar ltac:(lia) Hs) as Hk.
  assert (HM : 2 <= IZR (Z.of_nat m)) by (apply IZR_le; lia).
  set (M := IZR (Z.of_nat m)) in *.
  assert (Hq : sqrt (M - 1) * sqrt (M - 1) = M - 1) by (apply sqrt_sqrt; lra).
  assert (Hq0 : 0 <= sqrt (M - 1)) by apply sqrt_pos.
  assert (Hk2 : ratio_target m spar * ratio_target m spar <= M - 1 <->
                ratio_target m spar <= sqrt (M - 1)).
  { split; intros H.
    - apply square_le; [assumption|]. rewrite Hq. exact H.
    - rewrite <- Hq. apply Rmult_le_compat; lra. }
  rewrite Hk2. unfold ratio_target. fold M.
  split; intros H.
  - apply (Rmult_le_reg_r (sqrt M - 1)); [lra|].
    unfold Rdiv. rewrite Rmult_assoc, Rinv_l by lra. lra.
  - apply (Rmult_le_compat_r (sqrt M - 1)) in H; [|lra].
    unfold Rdiv in H. rewrite Rmult_assoc, Rinv_l in H by lra. lra.
Qed.

(** ** Order and the arrays of [sparse_opt] *)

Lemma descending_nth (b : vec) :
  descending b <->
  (forall i, (S i < length b)%nat -> nth (S i) b 0 <= nth i b 0).
Proof.
  induction b as [|x [|y b] IH].
  - simpl. split; auto. intros _ i Hi. lia.
  - simpl. split; auto. intros _ i Hi. lia.
  - change (descending (x :: y :: b)) with (y <= x /\ descending (y :: b)).
    rewrite IH. split.
    + intros [Hxy H] [|i] Hi; [exact Hxy|]. apply (H i). simpl in *. lia.
    + intros H. split; [apply (H O); simpl; lia|].
      intros i Hi. apply (H (S i)). simpl in *. lia.
Qed.

Lemma ascending_nth (b : vec) :
  ascending b <->
  (forall i, (S i < length b)%nat -> nth i b 0 <= nth (S i) b 0).
Proof.
  induction b as [|x [|y b] IH].
  - simpl. split; auto. intros _ i Hi. lia.
  - simpl. split; auto. intros _ i Hi. lia.
  - change (ascending (x :: y :: b)) with (x <= y /\ ascending (y :: b)).
    rewrite IH. split.
    + intros [Hxy H] [|i] Hi; [exact Hxy|]. apply (H i). simpl in *. lia.
    + intros H. split; [apply (H O); simpl; lia|].
      intros i Hi. apply (H (S i)). simpl in *. lia.
Qed.

Lemma sparse_opt_obj_length (b : vec) (k : R) :
  length (sparse_opt_obj b k) = length b.
Proof.
  unfold sparse_opt_obj, vdiv, vadd, vmul, vneg, vsqrt, vshift.
  rewrite !map2_length, !length_map, sparse_opt_y_length, cumsum_length,
    arange_length. lia.
Qed.

Lemma sparse_opt_obj_nth (b : vec) (k : R) (i : nat) :
  (i < length b)%nat ->
  nth i (sparse_opt_obj b k) 0 =
  (- sqrt (nth i (sparse_opt_y b k) 0) * (IZR (Z.of_nat (S i)) + k)
   + nth i (cumsum b) 0) / IZR (Z.of_nat (S i)).
Proof.
  intros Hi. unfold sparse_opt_obj, vdiv, vadd, vmul, vneg, vsqrt, vshift.
  pose proof (sparse_opt_y_length b k) as Hy.
  rewrite (map2_nth Rdiv _ _ i 0 0 0).
  2:{ rewrite !map2_length, !length_map, Hy, cumsum_length, arange_length.
      lia. }
  2:{ rewrite arange_length. lia. }
  rewrite (map2_nth Rplus _ _ i 0 0 0).
  2:{ rewrite !map2_length, !length_map, Hy, arange_length. lia. }
  2:{ rewrite cumsum_length. lia. }
  rewrite (map2_nth Rmult _ _ i 0 0 0).
  2:{ rewrite !length_map, Hy. lia. }
  2:{ rewrite length_map, arange_length. lia. }
  rewrite (map_nth_in _ _ i 0) by (rewrite length_map; lia).
  rewrite (map_nth_in _ _ i 0) by lia.
  rewrite (map_nth_in _ _ i 0) by (rewrite arange_length; lia).
  rewrite arange_nth by lia.
  replace (1 + i)%nat with (S i) by lia. reflexivity.
Qed.

(** ** [sparse_opt] does not see a constant added to [b] *)

Lemma vshift_length (t : R) (l : vec) : length (vshift t l) = length l.
Proof. apply length_map. Qed.

Lemma vsum_vshift (t : R) (l : vec) :
  vsum (vshift t l) = vsum l + IZR (Z.of_nat (length l)) * t.
Proof.
  unfold vshift, vsum. induction l as [|x l IH]; [simpl; ring|].
  cbn [map fold_right length]. rewrite IH, Nat2Z.inj_succ, succ_IZR. ring.
Qed.

Lemma vsum_sq_vshift (t : R) (l : vec) :
  vsum (vmul (vshift t l) (vshift t l)) =
  vsum (vmul l l) + 2 * t * vsum l + IZR (Z.of_nat (length l)) * (t * t).
Proof.
  unfold vshift, vsum, vmul. induction l as [|x l IH]; [simpl; ring|].
  cbn [map map2 fold_right length]. rewrite IH, Nat2Z.inj_succ, succ_IZR.
  ring.
Qed.

Lemma prefix_length (b : vec) (i : nat) :
  (i < length b)%nat -> length (firstn (S i) b) = S i.
Proof. intros Hi. rewrite length_firstn. lia. Qed.

Lemma cumsum_vshift_nth (t : R) (b : vec) (i : nat) :
  (i < length b)%nat ->
  nth i (cumsum (vshift t b)) 0 =
  nth i (cumsum b) 0 + IZR (Z.of_nat (S i)) * t.
Proof.
  intros Hi.
  rewrite !cumsum_nth by (rewrite ?vshift_length; assumption).
  unfold vshift at 1. rewrite firstn_map. fold (vshift t (firstn (S i) b)).
  now rewrite vsum_vshift, prefix_length.
Qed.

Lemma sparse_opt_y_vshift (t : R) (b : vec) (k : R) :
  sparse_opt_y (vshift t b) k = sparse_opt_y b k.
Proof.
  apply (nth_ext _ _ 0 0).
  - now rewrite !sparse_opt_y_length, vshift_length.
  - intros i Hi. rewrite sparse_opt_y_length, vshift_length in Hi.
    rewrite !sparse_opt_y_nth by (rewrite ?vshift_length; assumption).
    cbv zeta. unfold vshift at 1 2 3 4. rewrite firstn_map.
    fold (vshift t (firstn (S i) b)).
    rewrite vsum_vshift, vsum_sq_vshift, prefix_length by assumption.
    f_equal. ring.
Qed.

Lemma sparse_opt_obj_vshift (t : R) (b : vec) (k : R) :
  sparse_opt_obj (vshift t b) k = vshift t (sparse_opt_obj b k).
Proof.
  apply (nth_ext _ _ 0 0).
  - now rewrite vshift_length, !sparse_opt_obj_length, vshift_length.
  - intros i Hi. rewrite sparse_opt_obj_length, vshift_length in Hi.
    unfold vshift at 2.
    rewrite (map_nth_in _ _ i 0) by (rewrite sparse_opt_obj_length; lia).
    rewrite !sparse_opt_obj_nth by (rewrite ?vshift_length; assumption).
    rewrite sparse_opt_y_vshift, cumsum_vshift_nth by assumption.
    assert (0 < IZR (Z.of_nat (S i))) by (apply IZR_lt; lia).
    field. lra.
Qed.

Lemma argmax_from_vshift (t : R) (v : vec) :
  forall best bi i,
    argmax_from (best + t) bi i (vshift t v) = argmax_from best bi i v.
Proof.
  unfold vshift. induction v as [|x v IH]; intros best bi i; simpl;
    [reflexivity|].
  destruct (Rlt_dec (best + t) (x + t)), (Rlt_dec best x); try lra;
    apply IH.
Qed.

Lemma argmax_vshift (t : R) (v : vec) : argmax (vshift t v) = argmax v.
Proof.
  destruct v as [|x v]; [reflexivity|]. apply argmax_from_vshift.
Qed.

Lemma slice_map {A B : Type} (f : A -> B) (v : list A) (a b : nat) :
  slice (map f v) a b = map f (slice v a b).
Proof. unfold slice. now rewrite skipn_map, firstn_map. Qed.

Lemma sparse_opt_p_vshift (t : R) (b : vec) (k : R) :
  sparse_opt_p (vshift t b) k = sparse_opt_p b k.
Proof.
  unfold sparse_opt_p. rewrite sparse_opt_obj_vshift, vshift_length.
  unfold vshift at 1. rewrite slice_map.
  fold (vshift t (slice (sparse_opt_obj b k)
                        (Z.to_nat (sparse_opt_bot k)) (length b))).
  now rewrite argmax_vshift.
Qed.

Lemma sparse_opt_vshift (t : R) (b : vec) (k : R) :
  sparse_opt (vshift t b) k = sparse_opt b k.
Proof.
  unfold sparse_opt. rewrite vshift_length.
  destruct (Z.leb_spec (Z.of_nat (length b)) (sparse_opt_bot k)) as [|Hm];
    [reflexivity|].
  pose proof (sparse_opt_p_range b k Hm) as Hp.
  pose proof (sparse_opt_bot_nonneg k) as Hbot.
  assert (Hlam : sparse_opt_lam (vshift t b) k = sparse_opt_lam b k).
  { unfold sparse_opt_lam.
    now rewrite sparse_opt_p_vshift, sparse_opt_y_vshift. }
  assert (Hmue : sparse_opt_mue (vshift t b) k = sparse_opt_mue b k - t).
  { unfold sparse_opt_mue. rewrite Hlam, sparse_opt_p_vshift.
    rewrite cumsum_vshift_nth by lia.
    replace (Z.of_nat (S (Z.to_nat (sparse_opt_p b k))))
      with (sparse_opt_p b k + 1)%Z by lia.
    assert (0 < IZR (sparse_opt_p b k + 1)) by (apply IZR_lt; lia).
    field. lra. }
  rewrite sparse_opt_p_vshift, Hlam, Hmue. f_equal. f_equal.
  unfold vshift. rewrite firstn_map, map_map. apply map_ext.
  intros x. f_equal. ring.
Qed.

(** ** [sparse_opt] does not see a positive factor of [b] *)

Lemma vscale_length (c : R) (l : vec) : length (vscale c l) = length l.
Proof. apply length_map. Qed.

Lemma vsum_vscale (c : R) (l : vec) : vsum (vscale c l) = vsum l * c.
Proof.
  unfold vscale, vsum. induction l as [|x l IH]; [simpl; ring|].
  cbn [map fold_right]. rewrite IH. ring.
Qed.

Lemma vsum_sq_vscale (c : R) (l : vec) :
  vsum (vmul (vscale c l) (vscale c l)) = vsum (vmul l l) * (c * c).
Proof.
  unfold vscale, vsum, vmul. induction l as [|x l IH]; [simpl; ring|].
  cbn [map map2 fold_right]. rewrite IH. ring.
Qed.

Lemma cumsum_vscale_nth (c : R) (b : vec) (i : nat) :
  (i < length b)%nat ->
  nth i (cumsum (vscale c b)) 0 = nth i (cumsum b) 0 * c.
Proof.
  intros Hi.
  rewrite !cumsum_nth by (rewrite ?vscale_length; assumption).
  unfold vscale at 1. rewrite firstn_map. fold (vscale c (firstn (S i) b)).
  apply vsum_vscale.
Qed.

Lemma sparse_opt_y_vscale_nth (c : R) (b : vec) (k : R) (i : nat) :
  (i < length b)%nat ->
  nth i (sparse_opt_y (vscale c b) k) 0
  = c * c * nth i (sparse_opt_y b k) 0.
Proof.
  intros Hi.
  rewrite !sparse_opt_y_nth by (rewrite ?vscale_length; assumption).
  cbv zeta. unfold vscale at 1 2 3 4. rewrite firstn_map.
  fold (vscale c (firstn (S i) b)).
  rewrite vsum_vscale, vsum_sq_vscale. unfold Rdiv. ring.
Qed.

Lemma sqrt_scaled (c y : R) : 0 <= c -> sqrt (c * c * y) = c * sqrt y.
Proof.
  intros Hc. destruct (Rle_or_lt 0 y) as [Hy|Hy].
  - rewrite sqrt_mult by nra. now rewrite sqrt_square.
  - rewrite (sqrt_neg_0 y) by lra. rewrite sqrt_neg_0 by nra. ring.
Qed.

Lemma sparse_opt_obj_vscale (c : R) (b : vec) (k : R) :
  0 <= c ->
  sparse_opt_obj (vscale c b) k = vscale c (sparse_opt_obj b k).
Proof.
  intros Hc. apply (nth_ext _ _ 0 0).
  - now rewrite vscale_length, !sparse_opt_obj_length, vscale_length.
  - intros i Hi. rewrite sparse_opt_obj_length, vscale_length in Hi.
    unfold vscale at 2.
    rewrite (map_nth_in _ _ i 0) by (rewrite sparse_opt_obj_length; lia).
    rewrite !sparse_opt_obj_nth by (rewrite ?vscale_length; assumption).
    rewrite sparse_opt_y_vscale_nth, cumsum_vscale_nth by assumption.
    rewrite sqrt_scaled by assumption. unfold Rdiv. ring.
Qed.

Lemma argmax_from_vscale (c : R) (v : vec) :
  0 < c ->
  forall best bi i,
    argmax_from (best * c) bi i (vscale c v) = argmax_from best bi i v.
Proof.
  intros Hc. unfold vscale. induction v as [|x v IH]; intros best bi i;
    simpl; [reflexivity|].
  destruct (Rlt_dec (best * c) (x * c)), (Rlt_dec best x); try nra;
    apply IH.
Qed.

Lemma argmax_vscale (c : R) (v : vec) :
  0 < c -> argmax (vscale c v) = argmax v.
Proof.
  intros Hc. destruct v as [|x v]; [reflexivity|].
  now apply argmax_from_vscale.
Qed.

Lemma sparse_opt_p_vscale (c : R) (b : vec) (k : R) :
  0 < c -> sparse_opt_p (vscale c b) k = sparse_opt_p b k.
Proof.
  intros Hc. unfold sparse_opt_p.
  rewrite sparse_opt_obj_vscale, vscale_length by lra.
  unfold vscale at 1. rewrite slice_map.
  fold (vscale c (slice (sparse_opt_obj b k)
                        (Z.to_nat (sparse_opt_bot k)) (length b))).
  now rewrite argmax_vscale.
Qed.

Lemma sparse_opt_vscale (c : R) (b : vec) (k : R) :
  0 < c -> 0 < sparse_opt_lam b k ->
  sparse_opt (vscale c b) k = sparse_opt b k.
Proof.
  intros Hc Hl. unfold sparse_opt. rewrite vscale_length.
  destruct (Z.leb_spec (Z.of_nat (length b)) (sparse_opt_bot k)) as [|Hm];
    [reflexivity|].
  pose proof (sparse_opt_p_range b k Hm) as Hp.
  pose proof (sparse_opt_bot_nonneg k) as Hbot.
  assert (Hlam : sparse_opt_lam (vscale c b) k = c * sparse_opt_lam b k).
  { unfold sparse_opt_lam.
    rewrite sparse_opt_p_vscale, sparse_opt_y_vscale_nth by (assumption || lia).
    apply sqrt_scaled. lra. }
  assert (Hmue : sparse_opt_mue (vscale c b) k = c * sparse_opt_mue b k).
  { unfold sparse_opt_mue. rewrite Hlam, sparse_opt_p_vscale by assumption.
    rewrite cumsum_vscale_nth by lia. unfold Rdiv. ring. }
  rewrite sparse_opt_p_vscale, Hlam, Hmue by assumption. f_equal. f_equal.
  unfold vscale. rewrite firstn_map, map_map. apply map_ext.
  intros x. field. lra.
Qed.

(** ** Sorting, [argsort] and the write-back [V[ind] = a] *)

Lemma insert_key_perm (x : R * nat) (l : list (R * nat)) :
  Permutation (insert_key x l) (x :: l).
Proof.
  induction l as [|y l IH]; simpl; [apply Permutation_refl|].
  destruct (Rlt_dec (fst x) (fst y)); [apply Permutation_refl|].
  eapply Permutation_trans; [apply perm_skip, IH | apply perm_swap].
Qed.

Lemma sort_keys_perm (l : list (R * nat)) : Permutation (sort_keys l) l.
Proof.
  unfold sort_keys.
  assert (H : forall acc,
             Permutation (fold_left (fun acc x => insert_key x acc) l acc)
                         (l ++ acc)).
  { induction l as [|x l IH]; intros acc; simpl; [apply Permutation_refl|].
    eapply Permutation_trans; [apply IH|].
    eapply Permutation_trans;
      [apply Permutation_app_head, insert_key_perm|].
    apply Permutation_sym, Permutation_middle. }
  specialize (H []). now rewrite app_nil_r in H.
Qed.

Lemma insert_key_ascending (x : R * nat) (l : list (R * nat)) :
  ascending (map fst l) -> ascending (map fst (insert_key x l)).
Proof.
  induction l as [|y l IH]; intros Hl; [exact I|].
  cbn [insert_key]. destruct (Rlt_dec (fst x) (fst y)) as [Hxy|Hxy].
  - cbn [map]. change (fst x <= fst y /\ ascending (map fst (y :: l))).
    split; [lra | exact Hl].
  - destruct l as [|z l].
    + cbn [insert_key map]. change (fst y <= fst x /\ True).
      split; [lra|exact I].
    + cbn [map] in Hl.
      change (fst y <= fst z /\ ascending (map fst (z :: l))) in Hl.
      destruct Hl as [Hyz Hl]. specialize (IH Hl).
      cbn [insert_key] in *.
      destruct (Rlt_dec (fst x) (fst z)); cbn [map] in *.
      * change (fst y <= fst x /\ ascending (fst x :: map fst (z :: l))).
        split; [lra | exact IH].
      * change (fst y <= fst z
                /\ ascending (fst z :: map fst (insert_key x l))).
        split; [lra | exact IH].
Qed.

Lemma sort_keys_ascending (l : list (R * nat)) :
  ascending (map fst (sort_keys l)).
Proof.
  unfold sort_keys.
  assert (H : forall acc, ascending (map fst acc) ->
             ascending (map fst (fold_left (fun acc x => insert_key x acc)
                                           l acc))).
  { induction l as [|x l IH]; intros acc Hacc; simpl; [assumption|].
    apply IH, insert_key_ascending, Hacc. }
  apply H. exact I.
Qed.

Lemma keyed_fst (v : vec) : map fst (keyed v) = v.
Proof.
  unfold keyed. generalize O. induction v as [|x v IH]; intros s; simpl;
    [reflexivity|]. now rewrite IH.
Qed.

Lemma keyed_snd (v : vec) : map snd (keyed v) = seq 0 (length v).
Proof.
  unfold keyed. generalize O. induction v as [|x v IH]; intros s; simpl;
    [reflexivity|]. now rewrite IH.
Qed.

Lemma keyed_in (v : vec) (x : R) (i : nat) :
  In (x, i) (keyed v) -> (i < length v)%nat /\ nth i v 0 = x.
Proof.
  unfold keyed.
  assert (H : forall s, In (x, i) (combine v (seq s (length v))) ->
                        (s <= i < s + length v)%nat /\ nth (i - s) v 0 = x).
  { induction v as [|y v IH]; intros s Hin; [destruct Hin|].
    simpl in Hin. destruct Hin as [Heq|Hin].
    - injection Heq as -> ->. rewrite Nat.sub_diag. simpl. split; [lia|auto].
    - destruct (IH (S s) Hin) as [Hr Hn]. simpl. split; [lia|].
      replace (i - s)%nat with (S (i - S s)) by lia. exact Hn. }
  intros Hin. destruct (H O Hin) as [Hr Hn].
  rewrite Nat.sub_0_r in Hn. split; [lia | exact Hn].
Qed.

Lemma sort_perm (v : vec) : Permutation (sort v) v.
Proof.
  unfold sort. rewrite <- (keyed_fst v) at 2.
  apply Permutation_map, sort_keys_perm.
Qed.

Lemma argsort_perm (v : vec) : Permutation (argsort v) (seq 0 (length v)).
Proof.
  unfold argsort. rewrite <- keyed_snd.
  apply Permutation_map, sort_keys_perm.
Qed.

Lemma sort_ascending (v : vec) : ascending (sort v).
Proof. apply sort_keys_ascending. Qed.

Lemma rev_ascending (l : vec) : ascending l -> descending (rev l).
Proof.
  rewrite ascending_nth, descending_nth. intros H i Hi.
  rewrite length_rev in Hi. rewrite !rev_nth by lia.
  replace (length l - S i)%nat with (S (length l - S (S i))) by lia.
  apply H. lia.
Qed.

Lemma sorted_descending (v : vec) :
  descending (rev (sort v)) /\ Permutation (rev (sort v)) v.
Proof.
  split.
  - apply rev_ascending, sort_ascending.
  - eapply Permutation_trans; [apply Permutation_sym, Permutation_rev|].
    apply sort_perm.
Qed.

(** Position [j] of the decreasing order holds the entry of [v] found at
    [ind[j]]. *)
Lemma argsort_pairs (v : vec) (j : nat) :
  (j < length v)%nat ->
  nth (nth j (rev (argsort v)) O) v 0 = nth j (rev (sort v)) 0.
Proof.
  intros Hj. unfold argsort, sort. rewrite <- !map_rev.
  set (K := rev (sort_keys (keyed v))).
  assert (HK : length K = length v).
  { unfold K, keyed. rewrite length_rev, sort_keys_length, length_combine,
      length_seq. lia. }
  rewrite (map_nth_in snd K j (0, O)) by lia.
  rewrite (map_nth_in fst K j (0, O)) by lia.
  assert (Hin : In (nth j K (0, O)) (keyed v)).
  { apply (Permutation_in _ (sort_keys_perm (keyed v))).
    apply in_rev. fold K. apply nth_In. lia. }
  destruct (nth j K (0, O)) as [x i]. now apply keyed_in in Hin.
Qed.

Lemma upd_nth_eq (i : nat) (x : R) (v : vec) :
  (i < length v)%nat -> nth i (upd i x v) 0 = x.
Proof.
  revert i; induction v as [|y v IH]; intros [|i] Hi; simpl in *; try lia;
    auto. apply IH. lia.
Qed.

Lemma upd_nth_neq (i j : nat) (x : R) (v : vec) :
  i <> j -> nth j (upd i x v) 0 = nth j v 0.
Proof.
  revert i j; induction v as [|y v IH]; intros [|i] [|j] Hij; simpl; auto;
    try lia.
Qed.

Lemma scatter_notin (ind : list nat) :
  forall (V a : vec) (i : nat),
    ~ In i ind -> nth i (scatter V ind a) 0 = nth i V 0.
Proof.
  unfold scatter. induction ind as [|j ind IH]; intros V a i Hi;
    [reflexivity|].
  destruct a as [|x a]; [reflexivity|]. cbn [combine fold_left fst snd].
  rewrite IH by (intros H; apply Hi; now right).
  apply upd_nth_neq. intros ->. apply Hi. now left.
Qed.

Lemma scatter_nth (ind : list nat) :
  forall (V a : vec) (j : nat),
    NoDup ind -> (forall i, In i ind -> (i < length V)%nat) ->
    length a = length ind -> (j < length ind)%nat ->
    nth (nth j ind O) (scatter V ind a) 0 = nth j a 0.
Proof.
  induction ind as [|i ind IH]; intros V a j Hnd Hlt Hlen Hj;
    [simpl in Hj; lia|].
  destruct a as [|x a]; [simpl in Hlen; lia|].
  inversion Hnd as [|? ? Hnotin Hnd']; subst.
  change (scatter V (i :: ind) (x :: a)) with (scatter (upd i x V) ind a).
  destruct j as [|j]; cbn [nth].
  - rewrite scatter_notin by assumption.
    apply upd_nth_eq, Hlt. now left.
  - simpl in Hlen, Hj. apply IH; auto; try lia.
    intros i' Hi'. rewrite upd_length. apply Hlt. now right.
Qed.

(** The write-back of lines 106-107 for any [a] of the length of [v]:
    [V] has the entries of [a], each at the position its rank came from. *)
Lemma write_back (v a : vec) :
  length a = length v ->
  let ind := rev (argsort v) in
  let V := scatter (zeros (length v)) ind a in
  length V = length v /\
  (forall j, (j < length v)%nat -> nth (nth j ind O) V 0 = nth j a 0) /\
  Permutation V a.
Proof.
  intros Ha ind V.
  assert (Hperm : Permutation ind (seq 0 (length v))).
  { unfold ind. eapply Permutation_trans;
      [apply Permutation_sym, Permutation_rev | apply argsort_perm]. }
  assert (Hlen : length ind = length v).
  { rewrite (Permutation_length Hperm). apply length_seq. }
  assert (Hnd : NoDup ind).
  { apply (Permutation_NoDup (Permutation_sym Hperm)), seq_NoDup. }
  assert (Hlt : forall i, In i ind -> (i < length (zeros (length v)))%nat).
  { intros i Hi. apply (Permutation_in _ Hperm) in Hi.
    apply in_seq in Hi. unfold zeros. rewrite repeat_length. lia. }
  assert (HV : length V = length v).
  { unfold V, zeros. now rewrite scatter_length, repeat_length. }
  assert (Hnth : forall j, (j < length v)%nat ->
                           nth (nth j ind O) V 0 = nth j a 0).
  { intros j Hj. apply scatter_nth; auto; lia. }
  repeat split; auto.
  assert (Ea : map (fun i => nth i V 0) ind = a).
  { apply (nth_ext _ _ 0 0); [rewrite length_map; lia|].
    intros j Hj. rewrite length_map in Hj.
    rewrite (map_nth_in _ _ j O) by lia. apply Hnth. lia. }
  rewrite <- Ea. rewrite (list_as_nth V) at 1. rewrite HV.
  apply Permutation_sym, Permutation_map, Hperm.
Qed.

Lemma write_back_sorted (v : vec) :
  scatter (zeros (length v)) (rev (argsort v)) (rev (sort v)) = v.
Proof.
  assert (Hs : length (rev (sort v)) = length v)
    by now rewrite length_rev, sort_length.
  destruct (write_back v (rev (sort v)) Hs) as (HV & Hnth & _).
  cbv zeta in *.
  set (ind := rev (argsort v)) in *.
  set (V := scatter (zeros (length v)) ind (rev (sort v))) in *.
  assert (Hperm : Permutation (seq 0 (length v)) ind).
  { unfold ind. eapply Permutation_trans;
      [apply Permutation_sym, argsort_perm | apply Permutation_rev]. }
  apply (nth_ext _ _ 0 0); [exact HV|].
  intros i Hi. rewrite HV in Hi.
  assert (Hin : In i ind).
  { apply (Permutation_in _ Hperm), in_seq. lia. }
  destruct (In_nth ind i O Hin) as (j & Hj & Hji).
  assert (Hjl : (j < length v)%nat).
  { rewrite <- (Permutation_length Hperm), length_seq in Hj. exact Hj. }
  rewrite <- Hji, Hnth by assumption.
  symmetry. apply argsort_pairs. exact Hjl.
Qed.

(** ** One column update *)

Lemma W_sparse_ith_eq (W G cach : matrix) (spar : R) (i m : nat) :
  length W = m ->
  W_sparse_ith W G cach spar i =
  (a <- sparse_opt (rev (sort (vneg (column_gradient cach W G i))))
                   (ratio_target m spar) ;;
   Ok (set_col W i (new_column m (column_gradient cach W G i) a),
       madd cach (outer (vsub (new_column m (column_gradient cach W G i) a)
                              (col W i)) (row G i)))).
Proof. intros <-. reflexivity. Qed.

Lemma upd_upd (i : nat) (x y : R) (v : vec) :
  upd i x (upd i y v) = upd i x v.
Proof.
  revert i; induction v as [|z v IH]; intros [|i]; simpl; auto.
  now rewrite IH.
Qed.

Lemma set_col_length (W : matrix) (i : nat) (u : vec) :
  length u = length W -> length (set_col W i u) = length W.
Proof. intros H. unfold set_col. rewrite map2_length. lia. Qed.

Lemma set_col_set_col (W : matrix) (i : nat) :
  forall u V : vec, length u = length W ->
    set_col (set_col W i u) i V = set_col W i V.
Proof.
  unfold set_col. induction W as [|r W IH]; intros u V Hu; [reflexivity|].
  destruct u as [|y u]; [simpl in Hu; lia|].
  destruct V as [|x V]; [reflexivity|].
  simpl. rewrite upd_upd, IH; [reflexivity|]. simpl in Hu. lia.
Qed.

Lemma get_set_col_other (W : matrix) (i : nat) :
  forall (V : vec) (r j : nat), length V = length W -> j <> i ->
    get (set_col W i V) r j = get W r j.
Proof.
  unfold set_col, get. induction W as [|w W IH]; intros V r j HV Hj.
  - destruct V; reflexivity.
  - destruct V as [|x V]; [simpl in HV; lia|].
    destruct r as [|r]; simpl.
    + apply upd_nth_neq. auto.
    + apply IH; [simpl in HV; lia | assumption].
Qed.

Lemma col_set_col (W : matrix) (i rank : nat) :
  forall V : vec, length V = length W ->
    Forall (fun r => length r = rank) W -> (i < rank)%nat ->
    col (set_col W i V) i = V.
Proof.
  unfold set_col, col. induction W as [|w W IH]; intros V HV HW Hi.
  - destruct V; [reflexivity | simpl in HV; lia].
  - destruct V as [|x V]; [simpl in HV; lia|].
    inversion HW as [|? ? Hw HW']; subst. simpl.
    simpl in HV. rewrite upd_nth_eq by lia. f_equal.
    apply IH; auto; lia.
Qed.

Lemma col_cons (r : vec) (A : matrix) (j : nat) :
  col (r :: A) j = nth j r 0 :: col A j.
Proof. reflexivity. Qed.

Lemma column_gradient_forgets (N W G : matrix) (rank i : nat) :
  has_shape G rank rank = true -> (i < rank)%nat ->
  Forall (fun r => length r = rank) W ->
  forall u : vec, length u = length W ->
    Forall (fun r => length r = rank) N ->
    column_gradient (madd N (dot (set_col W i u) G)) (set_col W i u) G i =
    column_gradient (madd N (dot W G)) W G i.
Proof.
  intros HG Hi HW u Hu HN.
  assert (Hg : nth i (col G i) 0 = get G i i).
  { apply col_nth. rewrite (has_shape_rows G rank rank HG). exact Hi. }
  assert (Hc : snd (shape G) = rank)
    by (apply (has_shape_cols G rank rank HG); lia).
  unfold column_gradient, madd, dot, set_col, vsub, vscale.
  rewrite Hc. revert N u Hu HN.
  induction HW as [|w W Hw HW IH]; intros N u Hu HN.
  - destruct u; [|simpl in Hu; lia]. reflexivity.
  - destruct u as [|x u]; [simpl in Hu; lia|].
    destruct N as [|n N]; [reflexivity|].
    inversion HN as [|? ? Hn HN']; subst.
    cbn [map map2]. rewrite !col_cons. cbn [map map2]. f_equal.
    + unfold vadd.
      rewrite !(map2_nth Rplus _ _ i 0 0 0)
        by (rewrite ?length_map, ?length_seq; lia).
      rewrite !(map_nth_in _ _ i O) by (rewrite length_seq; lia).
      rewrite seq_nth by lia. cbn [plus].
      rewrite vdot_upd, Hg, upd_nth_eq by lia. ring.
    + apply IH; auto.
Qed.

Section ColumnUpdate.

Variables (N W G : matrix) (spar : R) (m rank i : nat).

Hypothesis G_shape : has_shape G rank rank = true.
Hypothesis W_shape : has_shape W m rank = true.
Hypothesis N_shape : has_shape N m rank = true.
Hypothesis i_lt : (i < rank)%nat.

Let W_rows : Forall (fun r => length r = rank) W.
Proof. now apply has_shape_spec in W_shape. Qed.

Let W_len : length W = m.
Proof. now apply has_shape_rows in W_shape. Qed.

Lemma W_sparse_ith_step :
  W_sparse_ith W G (madd N (dot W G)) spar i =
  (a <- sparse_opt
          (rev (sort (vneg (column_gradient (madd N (dot W G)) W G i))))
          (ratio_target m spar) ;;
   let V := new_column m (column_gradient (madd N (dot W G)) W G i) a in
   Ok (set_col W i V, madd N (dot (set_col W i V) G))).
Proof.
  rewrite (W_sparse_ith_eq W G _ spar i m W_len).
  destruct (sparse_opt _ _) as [a|e]; [|reflexivity].
  cbn [bind]. cbv zeta.
  now rewrite (cache_step N W G _ rank i G_shape i_lt W_rows).
Qed.

Lemma new_column_length (C a : vec) : length (new_column m C a) = m.
Proof. unfold new_column, zeros. now rewrite scatter_length, repeat_length. Qed.

Lemma column_gradient_length :
  length (column_gradient (madd N (dot W G)) W G i) = m.
Proof.
  pose proof (has_shape_rows N m rank N_shape) as HN.
  unfold column_gradient, vsub, vscale, madd, dot.
  rewrite map2_length, length_map, !col_length, map2_length, length_map.
  unfold matrix, vec in *. lia.
Qed.

Lemma W_sparse_ith_forgets (u : vec) :
  length u = m ->
  W_sparse_ith (set_col W i u) G (madd N (dot (set_col W i u) G)) spar i =
  W_sparse_ith W G (madd N (dot W G)) spar i.
Proof.
  intros Hu.
  assert (HWu : has_shape (set_col W i u) m rank = true)
    by now apply set_col_shape.
  assert (HWur : Forall (fun r => length r = rank) (set_col W i u))
    by now apply has_shape_spec in HWu.
  rewrite W_sparse_ith_step.
  rewrite (W_sparse_ith_eq (set_col W i u) G _ spar i m)
    by (rewrite set_col_length; lia).
  assert (HNr : Forall (fun r => length r = rank) N)
    by now apply has_shape_spec in N_shape.
  rewrite (column_gradient_forgets N W G rank i G_shape i_lt W_rows u)
    by (auto; lia).
  destruct (sparse_opt _ _) as [a|e]; [|reflexivity].
  cbn [bind]. cbv zeta.
  rewrite (cache_step N (set_col W i u) G _ rank i G_shape i_lt HWur).
  now rewrite set_col_set_col by lia.
Qed.

Lemma W_sparse_ith_again (W1 c1 : matrix) :
  W_sparse_ith W G (madd N (dot W G)) spar i = Ok (W1, c1) ->
  W_sparse_ith W1 G c1 spar i = Ok (W1, c1).
Proof.
  intros H. pose proof H as H'. rewrite W_sparse_ith_step in H'.
  destruct (sparse_opt _ _) as [a|e]; [|discriminate].
  cbn [bind] in H'. cbv zeta in H'. injection H' as <- <-.
  rewrite W_sparse_ith_forgets by apply new_column_length. exact H.
Qed.

Lemma W_sparse_ith_frame (W1 c1 : matrix) :
  W_sparse_ith W G (madd N (dot W G)) spar i = Ok (W1, c1) ->
  has_shape W1 m rank = true /\ c1 = madd N (dot W1 G) /\
  forall r j, j <> i -> get W1 r j = get W r j.
Proof.
  intros H. rewrite W_sparse_ith_step in H.
  destruct (sparse_opt _ _) as [a|e]; [|discriminate].
  cbn [bind] in H. cbv zeta in H. injection H as <- <-.
  repeat split.
  - apply set_col_shape; [assumption | apply new_column_length].
  - intros r j Hj. apply get_set_col_other; [|assumption].
    rewrite new_column_length. lia.
Qed.

End ColumnUpdate.

Lemma vsum_perm (u v : vec) : Permutation u v -> vsum u = vsum v.
Proof.
  unfold vsum. induction 1; simpl; lra.
Qed.

Lemma vmul_self (u : vec) : vmul u u = map (fun x => x * x) u.
Proof.
  unfold vmul. induction u as [|x u IH]; simpl; [reflexivity|].
  now rewrite IH.
Qed.

Lemma sumsq_perm (u v : vec) :
  Permutation u v -> vsum (vmul u u) = vsum (vmul v v).
Proof.
  intros H. rewrite !vmul_self. now apply vsum_perm, Permutation_map.
Qed.

Lemma mneg_shape (A : matrix) (m n : nat) :
  has_shape A m n = true -> has_shape (mneg A) m n = true.
Proof.
  intros HA. apply has_shape_spec in HA as [HA1 HA2].
  apply has_shape_spec. unfold mneg, vneg, matrix, vec in *. split.
  - now rewrite length_map.
  - rewrite Forall_map. eapply Forall_impl; [|exact HA2].
    cbv beta. intros a Ha. now rewrite length_map.
Qed.

Lemma residual_base_shape (X H : matrix) (m n rank : nat) :
  has_shape X m n = true -> has_shape H rank n = true ->
  (0 < n)%nat -> (0 < rank)%nat ->
  has_shape (mneg (dot X (transpose H))) m rank = true.
Proof.
  intros HX HH Hn Hr. apply mneg_shape, dot_shape.
  - eapply has_shape_rows; eauto.
  - apply (has_shape_cols _ n rank); [|assumption].
    now apply transpose_shape.
Qed.

(** The sweep over the first [i] columns returns and leaves the columns
    from [i] on as they were. *)
Lemma update_W_sweep_frame (X W H : matrix) (spar : R) (m n rank i : nat) :
  has_shape X m n = true -> has_shape W m rank = true ->
  has_shape H rank n = true -> (0 < n)%nat -> (i <= rank)%nat ->
  (sparse_opt_bot (ratio_target m spar) < Z.of_nat m)%Z ->
  exists W' cach',
    update_W_sweep (dot H (transpose H)) spar (seq 0 i) W (residual X W H)
    = Ok (W', cach') /\
    has_shape W' m rank = true /\ cach' = residual X W' H /\
    forall r j, (i <= j)%nat -> get W' r j = get W r j.
Proof.
  intros HX HW HH Hn Hi Hbot.
  induction i as [|i IH].
  - exists W, (residual X W H). simpl. auto.
  - destruct IH as (W1 & c1 & Hrun & HW1 & Hc1 & Hfr); [lia|].
    assert (Hr : (0 < rank)%nat) by lia.
    assert (HG : has_shape (dot H (transpose H)) rank rank = true)
      by (apply (gram_shape H rank n); auto).
    pose proof (residual_base_shape X H m n rank HX HH Hn Hr) as HN.
    destruct (W_sparse_ith_invariant (mneg (dot X (transpose H))) W1
                (dot H (transpose H)) spar m rank i) as (W2 & Hstep & HW2);
      auto.
    { eapply has_shape_rows; eauto. }
    destruct (W_sparse_ith_frame _ W1 _ spar m rank i HG HW1
                ltac:(lia) _ _ Hstep) as (_ & _ & Hfr2).
    exists W2, (residual X W2 H).
    unfold update_W_sweep in *.
    rewrite seq_S, for_each_app, Hrun. cbn [bind for_each fst snd plus].
    rewrite Hc1. unfold residual at 1. rewrite Hstep.
    repeat split; auto.
    intros r j Hj. rewrite Hfr2 by lia. apply Hfr. lia.
Qed.

(** The column written by one update is a rearrangement of the vector
    [sparse_opt] returned. *)
Lemma W_sparse_ith_column (N W G : matrix) (spar : R) (m rank i : nat) :
  has_shape G rank rank = true -> has_shape W m rank = true ->
  has_shape N m rank = true -> (i < rank)%nat ->
  (sparse_opt_bot (ratio_target m spar) < Z.of_nat m)%Z ->
  exists W1 a,
    sparse_opt (rev (sort (vneg (column_gradient (madd N (dot W G)) W G i))))
               (ratio_target m spar) = Ok a /\
    W_sparse_ith W G (madd N (dot W G)) spar i
    = Ok (W1, madd N (dot W1 G)) /\
    Permutation (col W1 i) a.
Proof.
  intros HG HW HN Hi Hbot.
  set (C := column_gradient (madd N (dot W G)) W G i).
  assert (HC : length (vneg C) = m).
  { unfold vneg. rewrite length_map.
    apply (column_gradient_length N W G m rank i); assumption. }
  assert (Hb : length (rev (sort (vneg C))) = m)
    by now rewrite length_rev, sort_length.
  destruct (sparse_opt_returns (rev (sort (vneg C))) (ratio_target m spar))
    as (a & Ha & Hla); [rewrite Hb; assumption|].
  exists (set_col W i (new_column m C a)), a.
  split; [exact Ha|]. split.
  - rewrite (W_sparse_ith_step N W G spar m rank i HG HW Hi).
    fold C. rewrite Ha. reflexivity.
  - rewrite (col_set_col W i rank).
    + pose proof (write_back (vneg C) a ltac:(lia)) as (_ & _ & Hp).
      cbv zeta in Hp. rewrite HC in Hp. exact Hp.
    + rewrite (new_column_length m). symmetry.
      eapply has_shape_rows; eauto.
    + now apply has_shape_spec in HW.
    + exact Hi.
Qed.

(** ** [update_H]: shape, sign and zero entries *)




(** ** The factorization loop and the initial factors *)



Section InitialFactors.

Variable G : generator.





End InitialFactors.

(** ** Entries of the vector [sparse_opt] returns *)

Lemma sparse_opt_entries (b z : vec) (k : R) :
  (sparse_opt_bot k < Z.of_nat (length b))%Z ->
  sparse_opt b k = Ok z ->
  (forall i, (i <= Z.to_nat (sparse_opt_p b k))%nat ->
             nth i z 0 = (nth i b 0 + sparse_opt_mue b k)
                         / sparse_opt_lam b k) /\
  (forall i, (Z.to_nat (sparse_opt_p b k) < i)%nat -> nth i z 0 = 0).
Proof.
  intros Hm Hz.
  pose proof (sparse_opt_p_range b k Hm) as Hp.
  pose proof (sparse_opt_bot_nonneg k) as Hbot.
  unfold sparse_opt in Hz.
  destruct (Z.leb_spec (Z.of_nat (length b)) (sparse_opt_bot k)); [lia|].
  injection Hz as <-.
  set (P := Z.to_nat (sparse_opt_p b k)) in *.
  replace (Z.to_nat (sparse_opt_p b k + 1)) with (S P) by lia.
  assert (Hh : length (map (fun x => (x + sparse_opt_mue b k)
                                     / sparse_opt_lam b k)
                           (firstn (S P) b)) = S P)
    by (rewrite length_map, length_firstn; lia).
  split; intros i Hi.
  - rewrite app_nth1 by lia.
    rewrite (map_nth_in _ _ i 0) by (rewrite length_firstn; lia).
    rewrite nth_firstn. destruct (Nat.ltb_spec i (S P)); [reflexivity|lia].
  - rewrite app_nth2 by lia. rewrite skipn_zeros. unfold zeros.
    apply nth_repeat.
Qed.

Lemma descending_le (b : vec) (i j : nat) :
  descending b -> (i <= j)%nat -> (j < length b)%nat ->
  nth j b 0 <= nth i b 0.
Proof.
  rewrite descending_nth. intros H Hij Hj.
  induction j as [|j IH]; [replace i with O by lia; lra|].
  destruct (Nat.eq_dec i (S j)) as [->|Hne]; [lra|].
  apply Rle_trans with (nth j b 0); [apply H; lia | apply IH; lia].
Qed.

Lemma sparse_opt_lam_b_neg : sparse_opt_lam b_neg (8 / 5) = 25 / 3.
Proof.
  unfold sparse_opt_lam. rewrite sparse_opt_p_b_neg. simpl.
  apply sqrt_eq; [lra | field].
Qed.

Lemma b_neg_guard : (sparse_opt_bot (8 / 5) < Z.of_nat (length b_neg))%Z.
Proof. rewrite sparse_opt_bot_8_5. simpl. lia. Qed.

(** X1.  Whenever [sparse_opt] passes its guard with [lam > 0], it returns
    a vector of the length of [b] whose entries add up to [k], whose L2
    norm is 1 and whose entries after the truncation point are 0. *)
Theorem sparse_opt_entry_sum_and_norm (b : vec) (k : R) :
  (sparse_opt_bot k < Z.of_nat (length b))%Z ->
  0 < sparse_opt_lam b k ->
  exists z, sparse_opt b k = Ok z /\ length z = length b /\
            vsum z = k /\ norm2 z = 1 /\
            forall i, (Z.to_nat (sparse_opt_p b k) < i)%nat -> nth i z 0 = 0.
Proof.
  intros Hm Hlam.
  destruct (sparse_opt_returns b k Hm) as (z & Hz & Hl).
  destruct (sparse_opt_sum_and_norm b z k Hm Hlam Hz) as [Hs Hq].
  exists z. repeat split; auto.
  - unfold norm2. rewrite Hq. apply sqrt_1.
  - apply (sparse_opt_entries b z k Hm Hz).
Qed.

Lemma sparse_opt_entry_sum_and_norm_witness :
  exists z, sparse_opt b_neg (8 / 5) = Ok z /\ length z = length b_neg /\
            vsum z = 8 / 5 /\ norm2 z = 1 /\
            forall i, (Z.to_nat (sparse_opt_p b_neg (8 / 5)) < i)%nat ->
                      nth i z 0 = 0.
Proof.
  apply (sparse_opt_entry_sum_and_norm b_neg (8 / 5) b_neg_guard).
  rewrite sparse_opt_lam_b_neg. lra.
Defined.

Lemma sparse_opt_2_1_0 :
  (sparse_opt_bot 1 < Z.of_nat (length [2; 1; 0]))%Z /\
  0 < sparse_opt_lam [2; 1; 0] 1 /\
  sparse_opt [2; 1; 0] 1 = Ok [1; 0; 0].
Proof.
  assert (Hb : sparse_opt_bot 1 = 1%Z) by (apply Zceil_value; lra).
  assert (Hp : sparse_opt_p [2; 1; 0] 1 = 1%Z).
  { unfold sparse_opt_p. rewrite Hb. simpl.
    destruct (Rlt_dec _ _); reflexivity. }
  assert (Hl : sparse_opt_lam [2; 1; 0] 1 = 1).
  { unfold sparse_opt_lam. rewrite Hp. simpl. apply sqrt_eq; [lra | field]. }
  split; [rewrite Hb; simpl; lia|]. split; [rewrite Hl; lra|].
  unfold sparse_opt, sparse_opt_mue. rewrite Hl, Hp, Hb. simpl.
  f_equal. vec_eq ltac:(field).
Qed.

(** X2.  If moreover no entry of the returned vector is negative, its
    ratio of L1 to L2 norm is exactly [k]. *)
Theorem sparse_opt_ratio_of_nonneg_result (b z : vec) (k : R) :
  (sparse_opt_bot k < Z.of_nat (length b))%Z ->
  0 < sparse_opt_lam b k ->
  sparse_opt b k = Ok z -> nonneg_vec z ->
  norm1 z / norm2 z = k.
Proof. apply sparse_opt_ratio_when_nonneg. Qed.

Lemma sparse_opt_ratio_of_nonneg_result_witness :
  norm1 [1; 0; 0] / norm2 [1; 0; 0] = 1.
Proof.
  destruct sparse_opt_2_1_0 as (Hg & Hl & Hz).
  apply (sparse_opt_ratio_of_nonneg_result [2; 1; 0] [1; 0; 0] 1 Hg Hl Hz).
  repeat constructor; lra.
Defined.

(** X3.  For [b] sorted in decreasing order and [lam > 0], the entries of
    the result up to the truncation point are in decreasing order too; if
    none of them is negative, the whole result is. *)
Theorem sparse_opt_keeps_order (b : vec) (k : R) :
  descending b ->
  (sparse_opt_bot k < Z.of_nat (length b))%Z ->
  0 < sparse_opt_lam b k ->
  exists z, sparse_opt b k = Ok z /\
    (forall i j, (i <= j)%nat -> (j <= Z.to_nat (sparse_opt_p b k))%nat ->
                 nth j z 0 <= nth i z 0) /\
    (nonneg_vec z -> descending z).
Proof.
  intros Hd Hm Hlam.
  destruct (sparse_opt_returns b k Hm) as (z & Hz & Hl).
  destruct (sparse_opt_entries b z k Hm Hz) as [Hhead Htail].
  pose proof (sparse_opt_p_range b k Hm) as Hp.
  pose proof (sparse_opt_bot_nonneg k) as Hbot.
  set (P := Z.to_nat (sparse_opt_p b k)) in *.
  assert (Hord : forall i j, (i <= j)%nat -> (j <= P)%nat ->
                             nth j z 0 <= nth i z 0).
  { intros i j Hij Hj. rewrite !Hhead by lia.
    pose proof (descending_le b i j Hd Hij ltac:(lia)).
    apply Rmult_le_compat_r; [|lra].
    left. now apply Rinv_0_lt_compat. }
  exists z. repeat split; auto.
  intros Hnn. apply descending_nth. intros i Hi.
  destruct (Nat.le_gt_cases (S i) P) as [Hle|Hgt].
  - apply Hord; lia.
  - rewrite (Htail (S i)) by lia.
    unfold nonneg_vec in Hnn. rewrite Forall_forall in Hnn.
    apply Hnn, nth_In. lia.
Qed.

Lemma sparse_opt_keeps_order_witness :
  exists z, sparse_opt b_neg (8 / 5) = Ok z /\
    (forall i j, (i <= j)%nat ->
                 (j <= Z.to_nat (sparse_opt_p b_neg (8 / 5)))%nat ->
                 nth j z 0 <= nth i z 0) /\
    (nonneg_vec z -> descending z).
Proof.
  apply (sparse_opt_keeps_order b_neg (8 / 5)).
  - simpl. lra.
  - exact b_neg_guard.
  - rewrite sparse_opt_lam_b_neg. lra.
Defined.

(** X4.  Adding one constant to every entry of [b] changes nothing:
    [sparse_opt(b + t, k)] raises when [sparse_opt(b, k)] does and returns
    the same vector otherwise. *)
Theorem sparse_opt_shift_invariant (t : R) (b : vec) (k : R) :
  sparse_opt (vshift t b) k = sparse_opt b k.
Proof. apply sparse_opt_vshift. Qed.

(** X5.  Multiplying [b] by a positive factor changes nothing either,
    when [lam > 0]. *)
Theorem sparse_opt_scale_invariant (c : R) (b : vec) (k : R) :
  0 < c -> 0 < sparse_opt_lam b k ->
  sparse_opt (vscale c b) k = sparse_opt b k.
Proof. apply sparse_opt_vscale. Qed.

Lemma sparse_opt_scale_invariant_witness :
  sparse_opt (vscale 2 b_neg) (8 / 5) = sparse_opt b_neg (8 / 5).
Proof.
  apply (sparse_opt_scale_invariant 2 b_neg (8 / 5)); [lra|].
  rewrite sparse_opt_lam_b_neg. lra.
Defined.

(** X6.  For a column of length [m >= 2] and [spar <= 1], the projection
    raises exactly when [spar] is below
    [(sqrt m - sqrt (m - 1)) / (sqrt m - 1)]. *)
Theorem sparse_opt_sparsity_threshold (b : vec) (m : nat) (spar : R) :
  length b = m -> (2 <= m)%nat -> spar <= 1 ->
  (sparse_opt b (ratio_target m spar) = Raise ValueError <->
   spar < (sqrt (IZR (Z.of_nat m)) - sqrt (IZR (Z.of_nat m) - 1))
          / (sqrt (IZR (Z.of_nat m)) - 1)).
Proof.
  intros Hb Hm Hs. rewrite sparse_opt_raises_iff, Hb.
  pose proof (guard_threshold m spar Hm Hs) as Hg.
  split; intros H.
  - apply Rnot_le_lt. intros Hle. apply Hg in Hle. lia.
  - apply Z.le_ngt. intros Hlt. apply Hg in Hlt. lra.
Qed.

Lemma sparse_opt_sparsity_threshold_witness :
  sparse_opt b_neg (ratio_target 4 (1 / 2)) = Raise ValueError <->
  1 / 2 < (sqrt (IZR (Z.of_nat 4)) - sqrt (IZR (Z.of_nat 4) - 1))
          / (sqrt (IZR (Z.of_nat 4)) - 1).
Proof.
  apply (sparse_opt_sparsity_threshold b_neg 4 (1 / 2));
    [reflexivity | lia | lra].
Defined.

(** X7.  The dense target is never accepted: with [spar = 0] the
    projection raises for every vector, and so does every feature update;
    a vector of length 1 is rejected for every sparsity. *)
Theorem dense_and_single_row_targets_raise :
  (forall b, sparse_opt b (ratio_target (length b) 0) = Raise ValueError) /\
  (forall b spar, length b = 1%nat ->
                  sparse_opt b (ratio_target 1 spar) = Raise ValueError) /\
  (forall X W H m n rank,
      has_shape X m n = true -> has_shape W m rank = true ->
      has_shape H rank n = true -> (0 < m)%nat -> (0 < rank)%nat ->
      update_W X W H 0 = Raise ValueError).
Proof.
  repeat split.
  - intros b. apply sparse_opt_raises_iff. rewrite dense_target_bot. lia.
  - intros b spar Hb. apply sparse_opt_raises_iff.
    rewrite one_row_target, Hb.
    replace (sparse_opt_bot 1) with 1%Z; [simpl; lia|].
    symmetry. apply Zceil_value. lra.
  - intros X W H m n rank HX HW _ Hm Hr.
    apply (update_W_raises X W H 0 m n rank); auto.
    rewrite dense_target_bot. lia.
Qed.

Lemma dense_and_single_row_targets_raise_witness :
  update_W X_neg W_ones H_one 0 = Raise ValueError.
Proof.
  destruct dense_and_single_row_targets_raise as (_ & _ & H).
  apply (H X_neg W_ones H_one 4%nat 1%nat 1%nat); try reflexivity; lia.
Defined.

(** X8.  What both call sites hand to [sparse_opt], [np.sort(x)[::-1]],
    is sorted in decreasing order, as its docstring asks, and has the
    entries of [x]. *)
Theorem call_sites_pass_descending (x : vec) :
  descending (rev (sort x)) /\ Permutation (rev (sort x)) x /\
  length (rev (sort x)) = length x.
Proof.
  destruct (sorted_descending x) as [Hd Hp].
  repeat split; auto. now rewrite length_rev, sort_length.
Qed.

(** X9.  The write-back [V[ind] = a] with [ind = np.argsort(x)[::-1]]
    undoes the sorting: entry [j] of [a] is stored where the [j]-th
    largest entry of [x] came from, so [V] is a rearrangement of [a], and
    writing back the sorted vector itself gives [x] again. *)
Theorem write_back_undoes_sort (x a : vec) :
  length a = length x ->
  length (scatter (zeros (length x)) (rev (argsort x)) a) = length x /\
  Permutation (scatter (zeros (length x)) (rev (argsort x)) a) a /\
  (forall j, (j < length x)%nat ->
     nth (nth j (rev (argsort x)) O)
         (scatter (zeros (length x)) (rev (argsort x)) a) 0 = nth j a 0 /\
     nth (nth j (rev (argsort x)) O) x 0 = nth j (rev (sort x)) 0) /\
  scatter (zeros (length x)) (rev (argsort x)) (rev (sort x)) = x.
Proof.
  intros Ha. destruct (write_back x a Ha) as (H1 & H2 & H3).
  cbv zeta in *. repeat split; auto.
  - now apply argsort_pairs.
  - apply write_back_sorted.
Qed.

Lemma write_back_undoes_sort_witness :
  length (scatter (zeros (length [3; 1; 2])) (rev (argsort [3; 1; 2]))
                  [7; 8; 9]) = length [3; 1; 2] /\
  Permutation (scatter (zeros (length [3; 1; 2])) (rev (argsort [3; 1; 2]))
                       [7; 8; 9]) [7; 8; 9] /\
  (forall j, (j < length [3; 1; 2])%nat ->
     nth (nth j (rev (argsort [3; 1; 2])) O)
         (scatter (zeros (length [3; 1; 2])) (rev (argsort [3; 1; 2]))
                  [7; 8; 9]) 0 = nth j [7; 8; 9] 0 /\
     nth (nth j (rev (argsort [3; 1; 2])) O) [3; 1; 2] 0
     = nth j (rev (sort [3; 1; 2])) 0) /\
  scatter (zeros (length [3; 1; 2])) (rev (argsort [3; 1; 2]))
          (rev (sort [3; 1; 2])) = [3; 1; 2].
Proof. apply (write_back_undoes_sort [3; 1; 2] [7; 8; 9]). reflexivity. Defined.

(** The sorted gradient of the closed instances for one column update. *)
Lemma column_example_sorted :
  rev (sort (vneg (column_gradient (madd (mneg X_neg) (dot W_ones [[1]]))
                                   W_ones [[1]] 0))) = b_neg.
Proof.
  set (C := vneg _).
  assert (HC : C = b_neg).
  { unfold C, b_neg, column_gradient. simpl.
    unfold vdot, get, vsum, vmul. simpl. vec_eq ltac:(ring). }
  rewrite HC. unfold b_neg, sort, sort_keys, keyed. simpl. decide_Rlt.
  reflexivity.
Qed.

(** X10.  The column update does not look at the column it replaces:
    started from [W] with column [i] overwritten by any [u] (and the cache
    of that matrix) it returns what it returns from [W]; applied to its
    own result it returns that result again. *)
Theorem column_update_forgets_old_column (N W G : matrix) (spar : R)
  (m rank i : nat) :
  has_shape G rank rank = true -> has_shape W m rank = true ->
  has_shape N m rank = true -> (i < rank)%nat ->
  (forall u, length u = m ->
     W_sparse_ith (set_col W i u) G (madd N (dot (set_col W i u) G)) spar i
     = W_sparse_ith W G (madd N (dot W G)) spar i) /\
  (forall W1 c1,
     W_sparse_ith W G (madd N (dot W G)) spar i = Ok (W1, c1) ->
     W_sparse_ith W1 G c1 spar i = Ok (W1, c1)).
Proof.
  intros HG HW HN Hi. split.
  - intros u Hu. now apply (W_sparse_ith_forgets N W G spar m rank i).
  - intros W1 c1. now apply (W_sparse_ith_again N W G spar m rank i).
Qed.

Lemma column_update_forgets_old_column_witness :
  (forall u, length u = 4%nat ->
     W_sparse_ith (set_col W_ones 0 u) [[1]]
       (madd (mneg X_neg) (dot (set_col W_ones 0 u) [[1]])) (2 / 5) 0
     = W_sparse_ith W_ones [[1]]
         (madd (mneg X_neg) (dot W_ones [[1]])) (2 / 5) 0) /\
  (forall W1 c1,
     W_sparse_ith W_ones [[1]] (madd (mneg X_neg) (dot W_ones [[1]]))
                  (2 / 5) 0 = Ok (W1, c1) ->
     W_sparse_ith W1 [[1]] c1 (2 / 5) 0 = Ok (W1, c1)).
Proof.
  apply (column_update_forgets_old_column (mneg X_neg) W_ones [[1]] (2 / 5)
           4 1 0); try reflexivity; lia.
Defined.

(** X11.  The sweep of [update_W] visits the columns in index order:
    after the first [i] of them the columns from [i] on are still those
    of the matrix it was given. *)
Theorem update_W_leaves_later_columns (X W H : matrix) (spar : R)
  (m n rank i : nat) :
  has_shape X m n = true -> has_shape W m rank = true ->
  has_shape H rank n = true -> (0 < n)%nat -> (i <= rank)%nat ->
  (sparse_opt_bot (ratio_target m spar) < Z.of_nat m)%Z ->
  exists W' cach',
    update_W_sweep (dot H (transpose H)) spar (seq 0 i) W (residual X W H)
    = Ok (W', cach') /\
    has_shape W' m rank = true /\
    forall r j, (i <= j)%nat -> get W' r j = get W r j.
Proof.
  intros HX HW HH Hn Hi Hbot.
  destruct (update_W_sweep_frame X W H spar m n rank i HX HW HH Hn Hi Hbot)
    as (W' & c & Hrun & Hs & _ & Hfr).
  exists W', c. auto.
Qed.

Lemma update_W_leaves_later_columns_witness :
  exists W' cach',
    update_W_sweep (dot [[1; 2]; [0; 1]] (transpose [[1; 2]; [0; 1]])) 1
      (seq 0 1) [[1; 2]; [1; 3]]
      (residual [[3; 1]; [2; 5]] [[1; 2]; [1; 3]] [[1; 2]; [0; 1]])
    = Ok (W', cach') /\
    has_shape W' 2 2 = true /\
    forall r j, (1 <= j)%nat -> get W' r j = get [[1; 2]; [1; 3]] r j.
Proof.
  apply (update_W_leaves_later_columns [[3; 1]; [2; 5]] [[1; 2]; [1; 3]]
           [[1; 2]; [0; 1]] 1 2 2 2 1); try reflexivity; try lia.
  rewrite ratio_target_full.
  replace (sparse_opt_bot 1) with 1%Z; [simpl; lia|].
  symmetry. apply Zceil_value. lra.
Defined.

(** X12.  The column a column update writes is a rearrangement of the
    vector [sparse_opt] returned; when [lam > 0] for that call, its
    entries add up to the target [k] and its L2 norm is 1. *)
Theorem column_written_has_unit_norm (N W G : matrix) (spar : R)
  (m rank i : nat) :
  has_shape G rank rank = true -> has_shape W m rank = true ->
  has_shape N m rank = true -> (i < rank)%nat ->
  (sparse_opt_bot (ratio_target m spar) < Z.of_nat m)%Z ->
  0 < sparse_opt_lam
        (rev (sort (vneg (column_gradient (madd N (dot W G)) W G i))))
        (ratio_target m spar) ->
  exists W1 a,
    sparse_opt (rev (sort (vneg (column_gradient (madd N (dot W G)) W G i))))
               (ratio_target m spar) = Ok a /\
    W_sparse_ith W G (madd N (dot W G)) spar i
    = Ok (W1, madd N (dot W1 G)) /\
    Permutation (col W1 i) a /\
    vsum (col W1 i) = ratio_target m spar /\
    norm2 (col W1 i) = 1.
Proof.
  intros HG HW HN Hi Hbot Hlam.
  destruct (W_sparse_ith_column N W G spar m rank i HG HW HN Hi Hbot)
    as (W1 & a & Ha & Hstep & Hp).
  set (b := rev (sort (vneg (column_gradient (madd N (dot W G)) W G i))))
    in *.
  assert (Hb : length b = m).
  { unfold b, vneg. rewrite length_rev, sort_length, length_map.
    now apply (column_gradient_length N W G m rank i). }
  destruct (sparse_opt_sum_and_norm b a (ratio_target m spar)) as [Hs Hq];
    auto; [rewrite Hb; assumption|].
  exists W1, a. repeat split; auto.
  - now rewrite (vsum_perm _ _ Hp).
  - unfold norm2. rewrite (sumsq_perm _ _ Hp), Hq. apply sqrt_1.
Qed.

Lemma column_written_has_unit_norm_witness :
  exists W1 a,
    sparse_opt
      (rev (sort (vneg (column_gradient
                          (madd (mneg X_neg) (dot W_ones [[1]]))
                          W_ones [[1]] 0))))
      (ratio_target 4 (2 / 5)) = Ok a /\
    W_sparse_ith W_ones [[1]] (madd (mneg X_neg) (dot W_ones [[1]]))
                 (2 / 5) 0
    = Ok (W1, madd (mneg X_neg) (dot W1 [[1]])) /\
    Permutation (col W1 0) a /\
    vsum (col W1 0) = ratio_target 4 (2 / 5) /\
    norm2 (col W1 0) = 1.
Proof.
  apply (column_written_has_unit_norm (mneg X_neg) W_ones [[1]] (2 / 5)
           4 1 0); try reflexivity; try lia.
  - rewrite ratio_target_4, sparse_opt_bot_8_5. lia.
  - rewrite column_example_sorted, ratio_target_4, sparse_opt_lam_b_neg. lra.
Defined.

(** X13.  For non-negative [X], [W], [H] of consistent shapes, [update_H]
    returns a non-negative matrix of the shape of [H]. *)
Theorem update_H_keeps_shape_and_sign (X W H : matrix) (m n r : nat) :
  has_shape X m n = true -> has_shape W m r = true ->
  has_shape H r n = true -> (0 < m)%nat -> (0 < r)%nat ->
  nonneg X -> nonneg W -> nonneg H ->
  has_shape (update_H X W H) r n = true /\ nonneg (update_H X W H).
Proof.
  intros HX HW HH Hm Hr NX NW NH.
  destruct (update_H_iter_descent X W H m n r 10 HX HW HH Hm Hr NX NW NH)
    as (Hs & Hn & _).
  split; assumption.
Qed.

Lemma update_H_keeps_shape_and_sign_witness :
  has_shape (update_H [[1; 2]; [3; 4]] [[1]; [1]] [[1; 1]]) 1 2 = true /\
  nonneg (update_H [[1; 2]; [3; 4]] [[1]; [1]] [[1; 1]]).
Proof.
  apply (update_H_keeps_shape_and_sign [[1; 2]; [3; 4]] [[1]; [1]] [[1; 1]]
           2 2 1); try reflexivity; try lia;
    repeat constructor; lra.
Defined.



Section FactorizationRuns.

Variable G : generator.



End FactorizationRuns.





